(** * dismaland-watcher: the polling cycle and the change detector

    A shallow embedding of [shared/poller.js] ([Poller.prototype.poll], in
    its two revisions, which differ in the extraction selector only) and of
    the [startPolling] callback of [app.js] in the revision that sends the
    notifications (an earlier revision of the callback only logs); then of
    the console transport of [shared/logging.js] and of [listingToCards]
    and [annotationToCard], which the first revision of [poller.js] still
    carries.

    JavaScript runs callbacks one at a time, so a polling cycle is modelled
    by the order in which the page requests complete (a schedule of page
    indices); everything the code does in between is sequential.  The
    libraries the code calls are modelled by what the code uses of them:
    - [async.map] (async 1.x) stores each item's value in the results
      array, hands the first error to the final callback at once, and
      otherwise calls it when every item is done; the final callback runs
      at most once;
    - [_.reduce] folds an array from the left;
    - [_.eq] is lodash 3's alias of [_.isEqual] (the code also calls
      [_.map] with a [thisArg], a lodash 3 signature): own keys are
      counted and compared one by one;
    - cheerio's [$(selector)] is given for selectors made of classes and
      tag names joined by the descendant combinator, over a parsed
      document. *)

From stdpp Require Import gmap strings list fin_maps pretty.

#[local] Set Warnings "-register-all".

(* ===================================================================== *)
(** * JavaScript values *)
(* ===================================================================== *)

(** The values that reach the code: [undefined], [null], booleans, strings
    and the error objects superagent reports. *)
Inductive value :=
  | VUndefined
  | VNull
  | VBool (b : bool)
  | VString (s : string)
  | VError (message : string).

Global Instance value_eq_dec : EqDecision value.
Proof. solve_decision. Defined.

Global Instance value_inhabited : Inhabited value := populate VUndefined.

(** An object literal: the identity it gets when it is created and its own
    properties. *)
Record object := Object {
  oid : nat;
  fields : gmap string value
}.

(** What is passed where the code expects the result object. *)
Inductive jsval :=
  | Val (v : value)
  | Obj (o : object).

(** ToBoolean. *)
Definition truthy (v : value) : bool :=
  match v with
  | VUndefined | VNull => false
  | VBool b => b
  | VString s => negb (String.eqb s "")
  | VError _ => true
  end.

(** [a || b]. *)
Definition js_or (a b : value) : value := if truthy a then a else b.

(** ToString, for string concatenation. *)
Definition to_string (v : value) : string :=
  match v with
  | VUndefined => "undefined"
  | VNull => "null"
  | VBool true => "true"
  | VBool false => "false"
  | VString s => s
  | VError m => ("Error: " ++ m)%string
  end.

(** [o.key]: an absent property reads as [undefined]. *)
Definition get (o : object) (key : string) : value :=
  default VUndefined (fields o !! key).

(** [arr[i] = v] on a JavaScript array: in range the slot is overwritten,
    out of range the array grows and the skipped slots read [undefined]. *)
Definition array_set (i : nat) (v : value) (arr : list value) : list value :=
  if decide (i < length arr) then <[i:=v]> arr
  else arr ++ replicate (i - length arr) VUndefined ++ [v].

(** [_.reduce(arr, f, init)]. *)
Definition lodash_reduce {A B} (arr : list A) (f : B → A → B) (init : B) : B :=
  foldl f init arr.

(* ===================================================================== *)
(** * Documents and selectors (cheerio) *)
(* ===================================================================== *)

Inductive node :=
  | Element (tag : string) (classes : list string) (children : list node)
  | TextNode (data : string).

(** A simple selector: [.class] or a tag name. *)
Inductive simple :=
  | Class (c : string)
  | Tag (t : string).

Definition matches (s : simple) (n : node) : bool :=
  match n with
  | Element tag classes _ =>
      match s with
      | Class c => bool_decide (c ∈ classes)
      | Tag t => String.eqb tag t
      end
  | TextNode _ => false
  end.

Definition children_of (n : node) : list node :=
  match n with
  | Element _ _ kids => kids
  | TextNode _ => []
  end.

(** [select_in sel n]: the elements of the subtree of [n] that a selector
    [s1 s2 ... sk] (descendant combinators) selects, in document order,
    when [sel] is the part of the selector that the ancestors of [n] have
    not matched yet.  An ancestor is used for the first simple selector it
    can serve. *)
Fixpoint select_in (sel : list simple) (n : node) : list node :=
  match n with
  | TextNode _ => []
  | Element _ _ kids =>
      match sel with
      | [] => []
      | [s] =>
          (if matches s n then [n] else []) ++ flat_map (select_in [s]) kids
      | s :: rest =>
          flat_map (select_in (if matches s n then rest else sel)) kids
      end
  end.

(** [$(selector)] on a loaded document. *)
Definition select (sel : list simple) (doc : list node) : list node :=
  flat_map (select_in sel) doc.

(** The node itself and everything below it, in document order. *)
Fixpoint subnodes (n : node) : list node :=
  n :: match n with
       | Element _ _ kids => flat_map subnodes kids
       | TextNode _ => []
       end.

Definition descendants (n : node) : list node :=
  flat_map subnodes (children_of n).

(** The two revisions of [processPage] differ in the selector. *)
Inductive revision :=
  | Priced   (* $(".day-has-shows .times .show-lowest-price") *)
  | Linked.  (* $(".day-has-shows .times a") *)

Definition innermost (r : revision) : simple :=
  match r with
  | Priced => Class "show-lowest-price"
  | Linked => Tag "a"
  end.

Definition selector (r : revision) : list simple :=
  [Class "day-has-shows"; Class "times"; innermost r].

(** The body of [processPage] once the page is fetched: the value handed
    to [cb(null, _)]. *)
Definition page_outcome (r : revision) (doc : list node) : bool :=
  let shows := select (selector r) doc in
  if Nat.eqb (length shows) 0 then false else true.

(** The markup test in the specification's words: a "day has shows" entry
    that contains, in its times, a priced time slot or a plain link. *)
Definition has_entry_with (inner : node → bool) (doc : list node) : bool :=
  existsb (λ day,
    matches (Class "day-has-shows") day &&
    existsb (λ times,
      matches (Class "times") times && existsb inner (descendants times))
      (descendants day))
    (flat_map subnodes doc).

Definition priced_or_link (n : node) : bool :=
  matches (Class "show-lowest-price") n || matches (Tag "a") n.

Definition spec_outcome (doc : list node) : bool :=
  has_entry_with priced_or_link doc.

(* ===================================================================== *)
(** * What the program does to the outside *)
(* ===================================================================== *)

Inductive level := Debug | Verbose | Info | Error.

(** The arguments of a logger call of the program. *)
Inductive logged :=
  | WithValue (format : string) (v : value)
  | WithArray (format : string) (arr : list value)
  | WithResult (format : string) (r : jsval).

Inductive event :=
  | Log (lvl : level) (what : logged)
  (** [poll] calls the callback it was given: [callback(err, result)]. *)
  | Callback (err : value) (result : jsval)
  | Sendmail (from : string) (to : value) (subject content : string)
  | PusherDevices
  | PusherNote (title body : string)
  (** reading a property of [undefined] or [null] *)
  | TypeError.

(* ===================================================================== *)
(** * async.map *)
(* ===================================================================== *)

(** The bookkeeping of one [async.map] call: the results array, the count
    of items that ended without an error, and whether the final callback
    has been used (it is wrapped in [_once]). *)
Record map_state := MapState {
  results : list value;
  completed : nat;
  called : bool
}.

Section async_map.
Context {A : Type}.

(** [iterator x i]: what the iterator does when the work it started for
    the item [x] of index [i] ends: the events, and the [(err, v)] it
    passes to its callback. *)
Variable iterator : A → nat → list event * (value * value).

(** The final callback, given [(err, results)]. *)
Variable final : value → list value → list event.

(** An item calls back with [(err, v)]: [results[index] = v], then
    [done(err)]. *)
Definition item_done (size : nat) (st : map_state) (i : nat)
    (err v : value) : map_state * list event :=
  let results' := array_set i v (results st) in
  if truthy err then
    (MapState results' (completed st) true,
     if called st then [] else final err results')
  else
    let completed' := S (completed st) in
    if decide (size ≤ completed') then
      (MapState results' completed' true,
       if called st then [] else final VNull results')
    else (MapState results' completed' (called st), []).

(** The items end in the order [sched]; an index that names no item
    ends nothing. *)
Fixpoint map_loop (arr : list A) (st : map_state) (sched : list nat)
    : list event :=
  match sched with
  | [] => []
  | i :: rest =>
      match arr !! i with
      | None => map_loop arr st rest
      | Some x =>
          let '(evs, (err, v)) := iterator x i in
          let '(st', out) := item_done (length arr) st i err v in
          evs ++ out ++ map_loop arr st' rest
      end
  end.

Definition async_map (arr : list A) (sched : list nat) : list event :=
  match arr with
  | [] => final VNull []
  | _ => map_loop arr (MapState [] 0 false) sched
  end.
End async_map.

(* ===================================================================== *)
(** * Poller.prototype.poll *)
(* ===================================================================== *)

(** What [superagent.get(...).end] reports for one request. *)
Inductive response :=
  | Failed (message : string)
  | Fetched (doc : list node).

Definition pages : list string :=
  ["http://www.seetickets.com/tour/dismaland/calendar/1";
   "http://www.seetickets.com/tour/dismaland/calendar/2"].

(** The waterfall [getPage; processPage] for one page, once its request
    has ended with [resp]: [getPage] logs and passes [(err, res)] on,
    [processPage] logs the error and calls [cb(err)], or loads the markup
    and calls [cb(null, false)] or [cb(null, true)].  The two steps are
    taken as one: nothing another page does in between changes what this
    one passes to its callback. *)
Definition check_page (r : revision) (resp : response) (page : string)
    : list event * (value * value) :=
  let called_page :=
    Log Debug (WithValue "Called calendar page %s" (VString page)) in
  match resp with
  | Failed m =>
      ([called_page; Log Error (WithValue "" (VError m))],
       (VError m, VUndefined))
  | Fetched doc =>
      ([called_page], (VNull, VBool (page_outcome r doc)))
  end.

(** [_.reduce(results, function(acc, result) { return acc || result; },
    false) ? "available" : "unavailable"]. *)
Definition aggregate (results : list value) : string :=
  if truthy (lodash_reduce results js_or (VBool false))
  then "available" else "unavailable".

(** [var result = {}; result.status = s]: a new object, of identity
    [fresh], with the one property [status]. *)
Definition poll_result (fresh : nat) (s : string) : jsval :=
  Obj (Object fresh (<["status" := VString s]> ∅)).

(** The function given to [async.map] as its final callback; [fresh] is
    the identity of the object that [var result = {}] creates. *)
Definition poll_done (fresh : nat) (err : value) (results : list value)
    : list event :=
  [Log Debug (WithArray "Done processing pages: %j" results);
   Callback err (poll_result fresh (aggregate results))].

(** One polling cycle: [net i] is what the request of page [i] ends with,
    [sched] the order in which the requests end. *)
Definition poll (r : revision) (fresh : nat) (net : nat → response)
    (sched : list nat) : list event :=
  async_map (λ page i, check_page r (net i) page) (poll_done fresh)
    pages sched.

(** Every request of the cycle ends, once. *)
Definition complete (sched : list nat) : Prop :=
  sched ≡ₚ seq 0 (length pages).

(* ===================================================================== *)
(** * The callback of app.js *)
(* ===================================================================== *)

(** lodash 3 [equalObjects]: the same number of own keys, every key of
    the first is a key of the second, with equal values. *)
Definition equal_objects (a b : gmap string value) : bool :=
  bool_decide (size a = size b) &&
  forallb (λ kv, match b !! kv.1 with
                 | Some w => bool_decide (kv.2 = w)
                 | None => false
                 end) (map_to_list a).

(** [_.eq(a, b)], lodash 3: the alias of [_.isEqual].  Objects are
    compared by their properties; the identity of an object plays no part
    (an object is equal to itself property by property, so the [===] test
    that comes first in lodash decides nothing more). *)
Definition lodash_eq (a b : jsval) : bool :=
  match a, b with
  | Val v, Val w => bool_decide (v = w)
  | Obj x, Obj y => equal_objects (fields x) (fields y)
  | _, _ => false
  end.

(** [a === b]: objects are compared by identity. *)
Definition strict_eq (a b : jsval) : bool :=
  match a, b with
  | Val v, Val w => bool_decide (v = w)
  | Obj x, Obj y => bool_decide (oid x = oid y)
  | _, _ => false
  end.

(** [result.status]; [None] when the read throws. *)
Definition read_status (result : jsval) : option value :=
  match result with
  | Obj o => Some (get o "status")
  | Val VUndefined | Val VNull => None
  | Val _ => Some VUndefined
  end.

(** The function given to [startPolling]; [recipient] is
    [process.env["MAIL_RECIPIENT"]].  It returns the new [currentResult]. *)
Definition on_result (recipient : value) (currentResult : jsval)
    (err : value) (result : jsval) : jsval * list event :=
  let logs :=
    (if truthy err then [Log Error (WithValue "Polling error %j" err)] else [])
    ++ [Log Verbose (WithResult "Polling result %j" result)] in
  if negb (lodash_eq currentResult result) then
    (result,
     logs ++ Log Info (WithResult "Polling result changed to %j" result) ::
     match read_status result with
     | None => [TypeError]
     | Some status =>
         [Sendmail "dimwatch@slytherin-basement.com" recipient
            "Dismaland availability changed!"
            ("Dismaland is now " ++ to_string status)%string;
          PusherDevices;
          PusherNote "Dismaland availability changed!"
            ("Dismaland is now " ++ to_string status)%string]
     end)
  else (currentResult, logs).

(** The events of a cycle with the callback of app.js run where [poll]
    calls it. *)
Fixpoint handle (recipient : value) (currentResult : jsval)
    (trace : list event) : jsval * list event :=
  match trace with
  | [] => (currentResult, [])
  | Callback err result :: rest =>
      let '(cur, out) := on_result recipient currentResult err result in
      let '(cur', out') := handle recipient cur rest in
      (cur', Callback err result :: out ++ out')
  | e :: rest =>
      let '(cur', out') := handle recipient currentResult rest in
      (cur', e :: out')
  end.

(** One firing of the timer. *)
Record cycle := Cycle {
  net : nat → response;
  arrival : list nat
}.

(** The state of the process: [currentResult] and the next object
    identity. *)
Record process := Process {
  currentResult : jsval;
  next_oid : nat
}.

(** [var currentResult = {};] *)
Definition start : process := Process (Obj (Object 0 ∅)) 1.

Definition run_cycle (r : revision) (recipient : value) (p : process)
    (c : cycle) : process * list event :=
  let trace := poll r (next_oid p) (net c) (arrival c) in
  let '(cur, out) := handle recipient (currentResult p) trace in
  (Process cur (S (next_oid p)), out).

(** [startPolling]: the timer fires [poll(callback)] again and again;
    [cycles] are the firings, in the order in which they end. *)
Fixpoint run (r : revision) (recipient : value) (p : process)
    (cycles : list cycle) : process * list event :=
  match cycles with
  | [] => (p, [])
  | c :: rest =>
      let '(p', out) := run_cycle r recipient p c in
      let '(p'', out') := run r recipient p' rest in
      (p'', out ++ out')
  end.

(** The calls of the callback in a trace. *)
Definition deliveries (trace : list event) : list (value * jsval) :=
  omap (λ e, match e with Callback err res => Some (err, res) | _ => None end)
    trace.

(** The notifications in a trace: the mail and the push note. *)
Definition is_notification (e : event) : bool :=
  match e with
  | Sendmail _ _ _ _ | PusherNote _ _ => true
  | _ => false
  end.

Definition notifications (trace : list event) : list event :=
  List.filter is_notification trace.

(* ===================================================================== *)
(** * Specifications used in the statements *)
(* ===================================================================== *)

(** What a selector [s1 ... sk] means: [x] is below (or is) [n], matches
    [sk], and has ancestors inside the subtree of [n] that match
    [s1], ..., [s(k-1)] from the outside in. *)
Fixpoint selects (sel : list simple) (n x : node) : Prop :=
  match sel with
  | [] => False
  | s :: rest =>
      match rest with
      | [] => In x (subnodes n) ∧ matches s x = true
      | _ => ∃ y c, In y (subnodes n) ∧ matches s y = true ∧
                    In c (children_of y) ∧ selects rest c x
      end
  end.

(** The parts of what an item's work ends with, by index. *)
Section items.
Context {A : Type}.
Variable iterator : A → nat → list event * (value * value).
Variable arr : list A.

Definition item_events (i : nat) : list event :=
  match arr !! i with Some x => (iterator x i).1 | None => [] end.

Definition item_err (i : nat) : value :=
  match arr !! i with Some x => (iterator x i).2.1 | None => VNull end.

Definition item_value (i : nat) : value :=
  match arr !! i with Some x => (iterator x i).2.2 | None => VUndefined end.

(** The results array after the items [ended] have stored their values. *)
Definition snapshot (ended : list nat) (init : list value) : list value :=
  foldl (λ acc i, array_set i (item_value i) acc) init ended.

(** An item that exists and ends without an error. *)
Definition succeeds (i : nat) : Prop :=
  i < length arr ∧ truthy (item_err i) = false.
End items.

(** What a page's request ends with, as the boolean the aggregation sees:
    a failed page counts as [false]. *)
Definition page_true (r : revision) (resp : response) : bool :=
  match resp with
  | Failed _ => false
  | Fetched doc => page_outcome r doc
  end.

Definition failed (resp : response) : bool :=
  match resp with Failed _ => true | Fetched _ => false end.

(** The requests that end before the first failure, and that failure. *)
Fixpoint until_failure (net : nat → response) (sched : list nat)
    : list nat * option string :=
  match sched with
  | [] => ([], None)
  | i :: rest =>
      match net i with
      | Failed m => ([], Some m)
      | Fetched _ =>
          let '(seen, failure) := until_failure net rest in
          (i :: seen, failure)
      end
  end.

Definition status_of (b : bool) : string :=
  if b then "available" else "unavailable".

(** The one call [callback(err, result)] of a cycle whose requests end in
    the order [sched]: the first failure, if any, is the error, and the
    status is the disjunction of the pages that ended before it. *)
Definition delivery (r : revision) (fresh : nat) (net : nat → response)
    (sched : list nat) : value * jsval :=
  let '(seen, failure) := until_failure net sched in
  (match failure with Some m => VError m | None => VNull end,
   poll_result fresh (status_of (existsb (λ i, page_true r (net i)) seen))).

(** The shape of a [PollResult]: no property besides [status] and
    [details]. *)
Definition is_poll_result (o : object) : Prop :=
  dom (fields o) ⊆ {["status"; "details"]}.

(** The calls of the callback that a run of cycles makes, one for each
    cycle, in the order in which the cycles end; [fresh] is the identity
    of the first result object. *)
Fixpoint expected (r : revision) (fresh : nat) (cycles : list cycle)
    : list (value * jsval) :=
  match cycles with
  | [] => []
  | c :: rest =>
      delivery r fresh (net c) (arrival c) :: expected r (S fresh) rest
  end.

(** The two notifications of a change to [status]. *)
Definition notified (recipient : value) (status : value) : list event :=
  [Sendmail "dimwatch@slytherin-basement.com" recipient
     "Dismaland availability changed!"
     ("Dismaland is now " ++ to_string status)%string;
   PusherNote "Dismaland availability changed!"
     ("Dismaland is now " ++ to_string status)%string].

(* ===================================================================== *)
(** * Sample pages and cycles *)
(* ===================================================================== *)

(** A calendar page with one day that has shows, whose times hold [slot]. *)
Definition calendar_with (slot : node) : list node :=
  [Element "div" ["calendar"]
     [Element "div" ["day"; "day-has-shows"]
        [Element "ul" ["times"] [Element "li" [] [slot]]]]].

(** A time slot as a link that is not marked with a price. *)
Definition plain_link : node := Element "a" [] [TextNode "11:00"].

(** A priced time slot that is not a link. *)
Definition priced_span : node :=
  Element "span" ["show-lowest-price"] [TextNode "3.00"].

(** A time slot that both revisions find. *)
Definition priced_link : node :=
  Element "a" ["show-lowest-price"] [TextNode "11:00"].

(** Page A (index 0) fails, page B (index 1) has a slot. *)
Definition a_fails_b_available (i : nat) : response :=
  match i with
  | 0 => Failed "ETIMEDOUT"
  | _ => Fetched (calendar_with priced_link)
  end.

(** Both pages fail. *)
Definition both_fail (i : nat) : response :=
  match i with
  | 0 => Failed "ETIMEDOUT"
  | _ => Failed "ECONNRESET"
  end.

(** A call of the callback that carries either an error or a result, not
    both and not neither. *)
Definition exclusive (d : value * jsval) : Prop :=
  (truthy d.1 = true ∧ ∀ o, d.2 ≠ Obj o) ∨
  (truthy d.1 = false ∧ ∃ o, d.2 = Obj o).

(* ===================================================================== *)
(** * More about the cycle and the callback: specifications *)
(* ===================================================================== *)

(** Requests of the cycle's pages, each of which has ended once. *)
Definition partial (ended : list nat) : Prop :=
  NoDup ended ∧ Forall (λ i, i < length pages) ended.

(** The status that the cycle [c] delivers. *)
Definition cycle_status (r : revision) (c : cycle) : string :=
  status_of (existsb (λ i, page_true r (net c i))
               (until_failure (net c) (arrival c)).1).

(** A fetched document with no "day has shows" element anywhere. *)
Definition no_calendar (doc : list node) : Prop :=
  ∀ n, In n (flat_map subnodes doc) →
       matches (Class "day-has-shows") n = false.

(** The statuses that differ from the one before them; [prev] is the
    status before the first, if there is one. *)
Fixpoint changes (prev : option string) (statuses : list string)
    : list string :=
  match statuses with
  | [] => []
  | s :: rest =>
      if decide (prev = Some s) then changes prev rest
      else s :: changes (Some s) rest
  end.

(** What [currentResult] holds: the empty object of the start, or a
    result with status [s]. *)
Definition stores (prev : option string) (cur : jsval) : Prop :=
  match prev with
  | None => cur = Obj (Object 0 ∅)
  | Some s => ∃ f, cur = poll_result f s
  end.

(* ===================================================================== *)
(** * logging.js: the console transport *)
(* ===================================================================== *)

(** [process.env[name]]: the variable's string, or [undefined]. *)
Definition getenv (env : gmap string string) (name : string) : value :=
  match env !! name with
  | Some s => VString s
  | None => VUndefined
  end.

(** The options given to [new winston.transports.Console]. *)
Record console := Console {
  timestamp : bool;
  prettyPrint : bool;
  console_level : value
}.

(** The array [winstonTransports] that the logger is built with. *)
Definition winstonTransports (env : gmap string string) : list console :=
  let transports := [] in
  if bool_decide (getenv env "CONSOLE_LOG_ENABLED" = VString "true") then
    let level :=
      js_or (js_or (getenv env "CONSOLE_LOG_LEVEL_APP")
                   (getenv env "CONSOLE_LOG_LEVEL"))
            (VString "debug") in
    transports ++ [Console true true level]
  else transports.

(** A variable that is set to something other than the empty string. *)
Definition set_nonempty (env : gmap string string) (name : string)
    : option string :=
  match env !! name with
  | Some s => if decide (s = "") then None else Some s
  | None => None
  end.

(** The level the console transport gets: the first of
    [CONSOLE_LOG_LEVEL_APP], [CONSOLE_LOG_LEVEL] that is set and not
    empty, else ["debug"]. *)
Definition chosen_level (env : gmap string string) : string :=
  match set_nonempty env "CONSOLE_LOG_LEVEL_APP" with
  | Some s => s
  | None => default "debug" (set_nonempty env "CONSOLE_LOG_LEVEL")
  end.

(* ===================================================================== *)
(** * poller.js, first revision: from a listing to cards *)
(* ===================================================================== *)

(** The values a listing is made of: objects and arrays nest.  The
    properties of an object are listed in the order in which they are
    enumerated. *)
Inductive js :=
  | JUndefined
  | JNull
  | JBoolean (b : bool)
  | JNumber (n : Z)
  | JString (s : string)
  | JArray (items : list js)
  | JObject (props : list (string * js)).

(** The own property [key] among [props]. *)
Fixpoint own (props : list (string * js)) (key : string) : option js :=
  match props with
  | [] => None
  | (k, v) :: rest => if decide (k = key) then Some v else own rest key
  end.

(** [o[key] = v] on the properties of an object: an existing property
    keeps its place, a new one comes last. *)
Fixpoint put (key : string) (v : js) (props : list (string * js))
    : list (string * js) :=
  match props with
  | [] => [(key, v)]
  | (k, w) :: rest =>
      if decide (k = key) then (k, v) :: rest else (k, w) :: put key v rest
  end.

(** [o.key] for the property names the code reads (none of them is built
    in): [None] is the TypeError of reading a property of [undefined] or
    [null]; what has no such property reads [undefined]. *)
Definition read (o : js) (key : string) : option js :=
  match o with
  | JUndefined | JNull => None
  | JObject props => Some (default JUndefined (own props key))
  | _ => Some JUndefined
  end.

(** The largest array length, [2^53 - 1]. *)
Definition MAX_SAFE_INTEGER : Z := 9007199254740991.

(** The values [_.map] (lodash 3) hands to its iteratee, in order: the
    items of an array; for an object with a valid [length], the
    properties [0] to [length - 1]; for another object, its own values;
    the characters of a string; nothing for anything else. *)
Definition lodash_map_items (collection : js) : list js :=
  match collection with
  | JArray items => items
  | JObject props =>
      match own props "length" with
      | Some (JNumber n) =>
          if decide (0 ≤ n ≤ MAX_SAFE_INTEGER)%Z then
            (λ i, default JUndefined (own props (pretty i)))
              <$> seq 0 (Z.to_nat n)
          else snd <$> props
      | _ => snd <$> props
      end
  | JString s => (λ a, JString (String a EmptyString)) <$> String.list_ascii_of_string s
  | _ => []
  end.

(** [Poller.prototype.annotationToCard]; [None] when a read throws. *)
Definition annotationToCard (listing annotation : js) : option js :=
  let card := [] in
  let card := put "mimeType" (JString "application/xÂ­mpegURL") card in
  let card := put "duration" (JNumber 180) card in
  pubDate ← read listing "pubDate";
  let card := put "pubDate" pubDate card in
  listingId ← read listing "listingId";
  let card := put "feedId" listingId card in
  cDVRURL ← read listing "cDVRURL";
  let card := put "cDVRURL" cDVRURL card in
  inner ← read annotation "annotation";
  title ← read inner "title";
  let card := put "title" title card in
  offset ← read annotation "offset";
  let card := put "offset" offset card in
  Some (JObject card).

(** [Poller.prototype.listingToCards]: [_.map] over
    [listing.payload.annotations]. *)
Definition listingToCards (listing : js) : option (list js) :=
  payload ← read listing "payload";
  annotations ← read payload "annotations";
  mapM (annotationToCard listing) (lodash_map_items annotations).

(** [undefined] or [null]. *)
Definition nullish (v : js) : Prop := v = JUndefined ∨ v = JNull.

(** The card made from a listing's properties and an annotation's. *)
Definition card_of (pubDate listingId cDVRURL title offset : js) : js :=
  JObject [("mimeType", JString "application/xÂ­mpegURL");
           ("duration", JNumber 180);
           ("pubDate", pubDate);
           ("feedId", listingId);
           ("cDVRURL", cDVRURL);
           ("title", title);
           ("offset", offset)].

(** A listing with one annotation, and the same with a second annotation
    that has no [annotation]. *)
Definition goal_annotation : js :=
  JObject [("annotation", JObject [("title", JString "Goal")]);
           ("offset", JNumber 30)].

Definition bare_annotation : js := JObject [("offset", JNumber 95)].

Definition listing_with (annotations : js) : js :=
  JObject [("listingId", JNumber 42);
           ("pubDate", JString "2015-09-01");
           ("cDVRURL", JString "http://cdvr.example.org/42");
           ("payload", JObject [("annotations", annotations)])].

(* ===================================================================== *)
(** * Documents: the selector finds what it means *)
(* ===================================================================== *)

Section node_induction.
Variable P : node → Prop.
Hypothesis text_case : ∀ data, P (TextNode data).
Hypothesis element_case :
  ∀ tag classes kids, Forall P kids → P (Element tag classes kids).

Fixpoint node_rect_forall (n : node) : P n :=
  match n with
  | TextNode data => text_case data
  | Element tag classes kids =>
      element_case tag classes kids
        ((fix all (l : list node) : Forall P l :=
            match l with
            | [] => @List.Forall_nil node P
            | k :: rest => @List.Forall_cons node P k rest (node_rect_forall k) (all rest)
            end) kids)
  end.
End node_induction.

Lemma subnodes_self n : In n (subnodes n).
Proof. destruct n; simpl; auto. Qed.

Lemma subnodes_element tag classes kids x :
  In x (subnodes (Element tag classes kids)) ↔
  x = Element tag classes kids ∨ ∃ k, In k kids ∧ In x (subnodes k).
Proof.
  simpl. rewrite in_flat_map. split; intros [H | H]; auto.
Qed.

Lemma subnodes_trans n : ∀ y x,
  In y (subnodes n) → In x (subnodes y) → In x (subnodes n).
Proof.
  induction n as [data | tag classes kids IH] using node_rect_forall;
    intros y x Hy Hx.
  - destruct Hy as [<- | []]. exact Hx.
  - apply subnodes_element in Hy as [-> | (k & Hk & Hy)]; [exact Hx |].
    apply subnodes_element. right. exists k. split; [exact Hk |].
    rewrite Forall_forall in IH. apply (IH k (proj2 (list_elem_of_In _ _) Hk) y x Hy Hx).
Qed.

Lemma descendants_subnodes y c x :
  In c (children_of y) → In x (subnodes c) → In x (descendants y).
Proof. intros Hc Hx. apply in_flat_map. eauto. Qed.

Lemma descendants_inv y x :
  In x (descendants y) → ∃ c, In c (children_of y) ∧ In x (subnodes c).
Proof. intros H. apply in_flat_map in H. exact H. Qed.

Lemma subnodes_child n y c :
  In y (subnodes n) → In c (children_of y) → In c (subnodes n).
Proof.
  intros Hy Hc. apply (subnodes_trans n y c Hy).
  destruct y as [tag classes kids | data]; [| destruct Hc].
  apply subnodes_element. right. exists c. split; [exact Hc | apply subnodes_self].
Qed.

(** A selection inside a subtree is a selection inside any tree around it. *)
Lemma selects_widen sel n c x :
  In c (subnodes n) → selects sel c x → selects sel n x.
Proof.
  intros Hc. destruct sel as [| s [| s' rest]]; simpl.
  - auto.
  - intros [Hx Hm]. split; [| exact Hm]. exact (subnodes_trans n c x Hc Hx).
  - intros (y & k & Hy & Hm & Hk & Hsel). exists y, k.
    split; [exact (subnodes_trans n c y Hc Hy) | auto].
Qed.

Lemma select_in_selects n : ∀ sel x, In x (select_in sel n) ↔ selects sel n x.
Proof.
  induction n as [data | tag classes kids IH] using node_rect_forall;
    intros sel x.
  - destruct sel as [| s [| s' rest]]; simpl; split; try tauto.
    + intros [[<- | []] Hm]. discriminate.
    + intros (y & c & [<- | []] & Hm & _). discriminate.
  - rewrite Forall_forall in IH.
    assert (IH' : ∀ k, In k kids → ∀ sel x,
               In x (select_in sel k) ↔ selects sel k x).
    { intros k Hk. apply IH, list_elem_of_In, Hk. }
    clear IH. set (n := Element tag classes kids).
    destruct sel as [| s [| s' rest]].
    + simpl. tauto.
    + change (In x ((if matches s n then [n] else []) ++
                    flat_map (select_in [s]) kids) ↔
              In x (subnodes n) ∧ matches s x = true).
      rewrite in_app_iff, in_flat_map. subst n. rewrite subnodes_element.
      split.
      * intros [H | (k & Hk & H)].
        -- destruct (matches s _) eqn:Hm; [| destruct H].
           destruct H as [<- | []]. auto.
        -- apply (IH' k Hk [s]) in H as [Hx Hm]. eauto.
      * intros [[-> | (k & Hk & Hx)] Hm].
        -- left. rewrite Hm. left. reflexivity.
        -- right. exists k. split; [exact Hk |]. apply (IH' k Hk [s]).
           split; assumption.
    + change (In x (flat_map (select_in (if matches s n then s' :: rest
                                         else s :: s' :: rest)) kids) ↔
              ∃ y c, In y (subnodes n) ∧ matches s y = true ∧
                     In c (children_of y) ∧ selects (s' :: rest) c x).
      rewrite in_flat_map. split.
      * intros (k & Hk & H). destruct (matches s n) eqn:Hm.
        -- exists n, k. split; [apply subnodes_self |].
           split; [exact Hm |]. split; [exact Hk |]. apply (IH' k Hk), H.
        -- apply (IH' k Hk) in H. destruct H as (y & c & Hy & Hmy & Hc & Hsel).
           exists y, c. split; [| auto].
           apply subnodes_element. eauto.
      * intros (y & c & Hy & Hmy & Hc & Hsel).
        apply subnodes_element in Hy as [-> | (k & Hk & Hy)].
        -- exists c. split; [exact Hc |]. subst n. rewrite Hmy.
           apply (IH' c Hc), Hsel.
        -- exists k. split; [exact Hk |]. apply (IH' k Hk).
           destruct (matches s n).
           ++ apply (selects_widen _ k c); [| exact Hsel].
              exact (subnodes_child k y c Hy Hc).
           ++ exists y, c. auto.
Qed.

(** The three-part selectors of [processPage], read as the nesting they
    ask for. *)
Lemma selects_three a b c n x :
  selects [a; b; c] n x ↔
  ∃ day, In day (subnodes n) ∧ matches a day = true ∧
    ∃ times, In times (descendants day) ∧ matches b times = true ∧
      In x (descendants times) ∧ matches c x = true.
Proof.
  simpl. split.
  - intros (day & k & Hday & Ha & Hk & times & k' & Htimes & Hb & Hk' & Hx & Hc).
    exists day. split; [exact Hday |]. split; [exact Ha |].
    exists times. split; [exact (descendants_subnodes day k times Hk Htimes) |].
    split; [exact Hb |]. split; [| exact Hc].
    exact (descendants_subnodes times k' x Hk' Hx).
  - intros (day & Hday & Ha & times & Htimes & Hb & Hx & Hc).
    apply descendants_inv in Htimes as (k & Hk & Htimes).
    apply descendants_inv in Hx as (k' & Hk' & Hx).
    exists day, k. repeat (split; [assumption |]).
    exists times, k'. auto.
Qed.

Lemma has_entry_with_true inner doc :
  has_entry_with inner doc = true ↔
  ∃ root day times x, In root doc ∧ In day (subnodes root) ∧
    matches (Class "day-has-shows") day = true ∧
    In times (descendants day) ∧ matches (Class "times") times = true ∧
    In x (descendants times) ∧ inner x = true.
Proof.
  unfold has_entry_with. rewrite existsb_exists. split.
  - intros (day & Hday & H). apply andb_true_iff in H as [Ha H].
    apply existsb_exists in H as (times & Htimes & H).
    apply andb_true_iff in H as [Hb H].
    apply existsb_exists in H as (x & Hx & Hc).
    apply in_flat_map in Hday as (root & Hroot & Hday).
    exists root, day, times, x. auto 10.
  - intros (root & day & times & x & Hroot & Hday & Ha & Htimes & Hb & Hx & Hc).
    exists day. split; [apply in_flat_map; eauto |].
    apply andb_true_iff. split; [exact Ha |].
    apply existsb_exists. exists times. split; [exact Htimes |].
    apply andb_true_iff. split; [exact Hb |].
    apply existsb_exists. eauto.
Qed.

Lemma page_outcome_true r doc :
  page_outcome r doc = true ↔ ∃ x, In x (select (selector r) doc).
Proof.
  unfold page_outcome. destruct (select (selector r) doc) as [| x l]; simpl.
  - split; [discriminate | intros [x []]].
  - split; [eauto | reflexivity].
Qed.

(* ===================================================================== *)
(** * Arrays and the aggregation *)
(* ===================================================================== *)

Lemma array_set_lookup i v arr j :
  array_set i v arr !!! j = if decide (j = i) then v else arr !!! j.
Proof.
  unfold array_set. rewrite !list_lookup_total_alt.
  destruct (decide (i < length arr)) as [Hin | Hout].
  - destruct (decide (j = i)) as [-> | Hne].
    + by rewrite list_lookup_insert_eq.
    + by rewrite list_lookup_insert_ne.
  - destruct (decide (j = i)) as [-> | Hne].
    + rewrite lookup_app_r by lia. rewrite lookup_app_r; rewrite length_replicate; [| lia].
      by rewrite Nat.sub_diag.
    + destruct (decide (j < length arr)) as [Hj | Hj].
      * by rewrite lookup_app_l.
      * rewrite lookup_app_r by lia.
        rewrite (lookup_ge_None_2 arr j) by lia. simpl.
        destruct (decide (j - length arr < i - length arr)) as [Hlt | Hge].
        -- rewrite lookup_app_l by (rewrite length_replicate; lia).
           by rewrite lookup_replicate_2.
        -- rewrite lookup_app_r by (rewrite length_replicate; lia).
           rewrite length_replicate.
           destruct (j - length arr - (i - length arr)) as [| k] eqn:Hk; [lia | done].
Qed.

Lemma reduce_or_truthy l : ∀ a,
  truthy (lodash_reduce l js_or a) = truthy a || existsb truthy l.
Proof.
  unfold lodash_reduce. induction l as [| v l IH]; intros a; simpl.
  - by rewrite orb_false_r.
  - rewrite IH. unfold js_or. destruct (truthy a) eqn:Ha; simpl.
    + by rewrite Ha.
    + done.
Qed.

Lemma aggregate_status results :
  aggregate results = status_of (existsb truthy results).
Proof. unfold aggregate. by rewrite reduce_or_truthy. Qed.

Lemma existsb_truthy_lookup (l : list value) :
  existsb truthy l = true ↔ ∃ j, truthy (l !!! j) = true.
Proof.
  rewrite existsb_exists. split.
  - intros (v & Hin & Hv). apply list_elem_of_In, list_elem_of_lookup in Hin as [j Hj].
    exists j. by rewrite (list_lookup_total_correct _ _ _ Hj).
  - intros [j Hj]. rewrite list_lookup_total_alt in Hj.
    destruct (l !! j) as [v |] eqn:Hl; [| discriminate].
    exists v. split; [| exact Hj]. apply list_elem_of_In, list_elem_of_lookup. eauto.
Qed.

Section snapshots.
Context {A : Type}.
Variable iterator : A → nat → list event * (value * value).
Variable arr : list A.

Lemma snapshot_lookup ended : ∀ init j,
  snapshot iterator arr ended init !!! j =
  if decide (j ∈ ended) then item_value iterator arr j else init !!! j.
Proof.
  unfold snapshot. induction ended as [| i ended IH]; intros init j; simpl.
  - destruct (decide (j ∈ [])) as [Hin | _]; [by apply elem_of_nil in Hin | done].
  - rewrite IH, array_set_lookup.
    destruct (decide (j ∈ ended)) as [Hin | Hnin].
    + rewrite decide_True; [done | by right].
    + destruct (decide (j = i)) as [-> | Hne].
      * rewrite decide_True; [done | by left].
      * rewrite decide_False; [done |].
        intros Hin. apply elem_of_cons in Hin as [? | ?]; contradiction.
Qed.

Lemma snapshot_snoc ended i init :
  snapshot iterator arr (ended ++ [i]) init =
  array_set i (item_value iterator arr i) (snapshot iterator arr ended init).
Proof. unfold snapshot. by rewrite foldl_app. Qed.

(** The aggregation sees a true value exactly when an item that has
    ended stored one. *)
Lemma snapshot_existsb ended :
  existsb truthy (snapshot iterator arr ended []) =
  existsb (λ i, truthy (item_value iterator arr i)) ended.
Proof.
  apply eq_true_iff_eq. rewrite existsb_truthy_lookup, existsb_exists. split.
  - intros [j Hj]. rewrite snapshot_lookup in Hj.
    destruct (decide (j ∈ ended)) as [Hin | _].
    + exists j. split; [by apply list_elem_of_In | exact Hj].
    + rewrite list_lookup_total_alt in Hj. discriminate.
  - intros (j & Hin & Hj). exists j. rewrite snapshot_lookup.
    rewrite decide_True; [exact Hj | by apply list_elem_of_In].
Qed.
End snapshots.

(* ===================================================================== *)
(** * async.map: one call of the final callback *)
(* ===================================================================== *)

Section async_map_facts.
Context {A : Type}.
Variable iterator : A → nat → list event * (value * value).
Variable final : value → list value → list event.
Variable arr : list A.

#[local] Abbreviation events := (item_events iterator arr).
#[local] Abbreviation err_of := (item_err iterator arr).
#[local] Abbreviation value_of := (item_value iterator arr).
#[local] Abbreviation loop := (map_loop iterator final arr).

(** One step of the loop, for an index that names an item. *)
Lemma map_loop_cons st i rest :
  i < length arr →
  loop st (i :: rest) =
  events i ++
  (item_done final (length arr) st i (err_of i) (value_of i)).2 ++
  loop (item_done final (length arr) st i (err_of i) (value_of i)).1 rest.
Proof.
  intros Hi. apply lookup_lt_is_Some_2 in Hi as [x Hx].
  simpl. unfold item_events, item_err, item_value. rewrite Hx.
  destruct (iterator x i) as [evs [err v]]. simpl.
  by destruct (item_done final (length arr) st i err v).
Qed.

(** Once the final callback is used, only the items speak. *)
Lemma map_loop_called sched : ∀ st,
  called st = true → loop st sched = flat_map events sched.
Proof.
  induction sched as [| i rest IH]; intros st Hst; [done |].
  simpl. unfold item_events. destruct (arr !! i) as [x |] eqn:Hx; [| by apply IH].
  destruct (iterator x i) as [evs [err v]]. simpl.
  unfold item_done. rewrite Hst.
  destruct (truthy err); [| destruct (decide _)]; simpl; f_equal; by apply IH.
Qed.

(** Items that succeed, short of the last one, only store their values. *)
Lemma map_loop_succeeding pre : ∀ st rest,
  called st = false →
  Forall (succeeds iterator arr) pre →
  completed st + length pre < length arr →
  loop st (pre ++ rest) =
  flat_map events pre ++
  loop (MapState (snapshot iterator arr pre (results st))
          (completed st + length pre) false) rest.
Proof.
  induction pre as [| i pre IH]; intros st rest Hst Hpre Hlen.
  - simpl. rewrite Nat.add_0_r. destruct st as [res n c]; simpl in *. by subst.
  - apply Forall_cons in Hpre as [[Hi Herr] Hpre]. simpl in Hlen.
    change ((i :: pre) ++ rest) with (i :: (pre ++ rest)).
    rewrite (map_loop_cons st i _ Hi). unfold item_done. rewrite Herr.
    rewrite decide_False by lia. simpl.
    rewrite IH; simpl; [| done | done | lia].
    rewrite <- app_assoc.
    by replace (S (completed st + length pre))
      with (completed st + S (length pre)) by lia.
Qed.

(** The first item that fails calls the final callback with its error. *)
Lemma map_loop_failure st i post :
  called st = false → i < length arr → truthy (err_of i) = true →
  loop st (i :: post) =
  events i ++ final (err_of i) (array_set i (value_of i) (results st)) ++
  flat_map events post.
Proof.
  intros Hst Hi Herr. rewrite (map_loop_cons st i _ Hi).
  unfold item_done. rewrite Herr, Hst. simpl. by rewrite map_loop_called.
Qed.

(** The last item to succeed calls it with [null]. *)
Lemma map_loop_last st i post :
  called st = false → i < length arr → truthy (err_of i) = false →
  length arr ≤ S (completed st) →
  loop st (i :: post) =
  events i ++ final VNull (array_set i (value_of i) (results st)) ++
  flat_map events post.
Proof.
  intros Hst Hi Herr Hlen. rewrite (map_loop_cons st i _ Hi).
  unfold item_done. rewrite Herr, Hst. rewrite decide_True by lia.
  simpl. by rewrite map_loop_called.
Qed.

Lemma async_map_loop sched :
  arr ≠ [] →
  async_map iterator final arr sched = loop (MapState [] 0 false) sched.
Proof. by destruct arr. Qed.

(** A schedule in which an item fails: the final callback is called
    once, when the first failure comes, with what is stored by then. *)
Theorem async_map_first_failure pre i post :
  pre ++ i :: post ≡ₚ seq 0 (length arr) →
  Forall (succeeds iterator arr) pre →
  truthy (err_of i) = true →
  async_map iterator final arr (pre ++ i :: post) =
  flat_map events pre ++ events i ++
  final (err_of i) (snapshot iterator arr (pre ++ [i]) []) ++
  flat_map events post.
Proof.
  intros Hperm Hpre Herr.
  assert (Hlen : length pre + S (length post) = length arr).
  { apply Permutation_length in Hperm.
    rewrite length_app, length_seq in Hperm. exact Hperm. }
  assert (Hi : i < length arr).
  { assert (Hin : i ∈ seq 0 (length arr)).
    { rewrite <- Hperm. apply elem_of_app. right. by left. }
    apply elem_of_seq in Hin. lia. }
  rewrite async_map_loop by (intros ->; simpl in Hi; lia).
  rewrite map_loop_succeeding; [| done | done | simpl; lia].
  rewrite map_loop_failure; [| done | done | done].
  cbn [results]. by rewrite snapshot_snoc.
Qed.

(** A schedule in which no item fails: the final callback is called
    once, at the end, with every value. *)
Theorem async_map_all_succeed sched :
  sched ≡ₚ seq 0 (length arr) →
  Forall (succeeds iterator arr) sched →
  async_map iterator final arr sched =
  flat_map events sched ++ final VNull (snapshot iterator arr sched []).
Proof.
  intros Hperm Hall.
  assert (Hlen : length sched = length arr).
  { apply Permutation_length in Hperm. by rewrite length_seq in Hperm. }
  destruct (decide (arr = [])) as [Hnil | Hne].
  - rewrite Hnil in *. simpl in Hlen. apply nil_length_inv in Hlen as ->.
    simpl. done.
  - rewrite async_map_loop by done.
    destruct (exists_last (l := sched)) as (pre & i & ->).
    { intros ->. simpl in Hlen. symmetry in Hlen.
      by apply nil_length_inv in Hlen. }
    rewrite length_app in Hlen. simpl in Hlen.
    apply Forall_app in Hall as [Hpre Hi].
    apply Forall_cons in Hi as [[Hi Herr] _].
    rewrite map_loop_succeeding; [| done | done | simpl; lia].
    rewrite map_loop_last; [| done | done | done | simpl; lia].
    cbn [results]. rewrite snapshot_snoc, flat_map_app. simpl.
    rewrite !app_nil_r. by rewrite <- app_assoc.
Qed.

(** Whatever the schedule, what the loop emits comes from an item or
    from a call of the final callback. *)
Lemma map_loop_origin sched : ∀ st e,
  In e (loop st sched) →
  (∃ i, In e (events i)) ∨ (∃ err res, In e (final err res)).
Proof.
  induction sched as [| i rest IH]; intros st e He; [destruct He |].
  simpl in He. destruct (arr !! i) as [x |] eqn:Hx; [| by apply (IH st)].
  destruct (iterator x i) as [evs [err v]] eqn:Hit.
  destruct (item_done final (length arr) st i err v) as [st' out] eqn:Hd.
  rewrite !in_app_iff in He. destruct He as [He | [He | He]].
  - left. exists i. unfold item_events. by rewrite Hx, Hit.
  - right. unfold item_done in Hd.
    destruct (truthy err); [| destruct (decide _)];
      injection Hd as <- <-; try destruct (called st); try destruct He; eauto.
  - by apply (IH st').
Qed.
End async_map_facts.

(* ===================================================================== *)
(** * The polling cycle *)
(* ===================================================================== *)

Lemma deliveries_app t1 t2 :
  deliveries (t1 ++ t2) = deliveries t1 ++ deliveries t2.
Proof. apply omap_app. Qed.

Lemma deliveries_poll_done fresh err results :
  deliveries (poll_done fresh err results) =
  [(err, poll_result fresh (aggregate results))].
Proof. reflexivity. Qed.

Lemma existsb_agree {B} (f g : B → bool) l :
  (∀ x, In x l → f x = g x) → existsb f l = existsb g l.
Proof.
  induction l as [| x l IH]; intros H; simpl; [done |].
  rewrite (H x) by (by left). rewrite IH; [done |].
  intros y Hy. apply H. by right.
Qed.

Section poll_facts.
Variable r : revision.
Variable net : nat → response.

#[local] Abbreviation check := (λ (page : string) (i : nat), check_page r (net i) page).

Lemma page_err i :
  i < length pages →
  item_err check pages i =
  match net i with Failed m => VError m | Fetched _ => VNull end.
Proof.
  intros Hi. apply lookup_lt_is_Some_2 in Hi as [page Hp].
  unfold item_err. rewrite Hp. unfold check_page. by destruct (net i).
Qed.

Lemma page_value i :
  truthy (item_value check pages i) =
  (if decide (i < length pages) then page_true r (net i) else false).
Proof.
  unfold item_value. destruct (decide (i < length pages)) as [Hi | Hi].
  - apply lookup_lt_is_Some_2 in Hi as [page Hp]. rewrite Hp.
    unfold check_page. by destruct (net i).
  - by rewrite lookup_ge_None_2 by lia.
Qed.

Lemma page_events_silent i : deliveries (item_events check pages i) = [].
Proof.
  unfold item_events. destruct (pages !! i) as [page |]; [| done].
  unfold check_page. by destruct (net i).
Qed.

Lemma pages_events_silent l :
  deliveries (flat_map (item_events check pages) l) = [].
Proof.
  induction l as [| i l IH]; [done |]. simpl.
  by rewrite deliveries_app, page_events_silent, IH.
Qed.

Lemma page_succeeds i :
  i < length pages → failed (net i) = false → succeeds check pages i.
Proof.
  intros Hi Hf. split; [exact Hi |]. rewrite page_err by done.
  by destruct (net i).
Qed.

(** A schedule either has no failure or splits at the first one. *)
Lemma until_failure_split sched :
  (Forall (λ i, failed (net i) = false) sched ∧
   until_failure net sched = (sched, None)) ∨
  (∃ pre i post m, sched = pre ++ i :: post ∧
     Forall (λ i, failed (net i) = false) pre ∧ net i = Failed m ∧
     until_failure net sched = (pre, Some m)).
Proof.
  induction sched as [| i rest IH]; [by left |].
  simpl. destruct (net i) as [m | doc] eqn:Hi.
  - right. by exists [], i, rest, m.
  - destruct IH as [[Hall ->] | (pre & j & post & m & -> & Hpre & Hj & ->)].
    + left. split; [| done]. constructor; [by rewrite Hi | done].
    + right. exists (i :: pre), j, post, m. repeat split; try done.
      constructor; [by rewrite Hi | done].
Qed.

Lemma complete_bound sched i : complete sched → In i sched → i < length pages.
Proof.
  unfold complete. intros Hc Hi. apply list_elem_of_In in Hi. rewrite Hc in Hi.
  apply elem_of_seq in Hi. lia.
Qed.

Lemma status_seen l :
  (∀ i, In i l → i < length pages) →
  aggregate (snapshot check pages l []) =
  status_of (existsb (λ i, page_true r (net i)) l).
Proof.
  intros Hl. rewrite aggregate_status, snapshot_existsb. f_equal.
  apply existsb_agree. intros i Hi. rewrite page_value.
  by rewrite decide_True by (by apply Hl).
Qed.

(** A cycle calls the callback once, with [delivery]. *)
Theorem poll_delivers fresh sched :
  complete sched →
  deliveries (poll r fresh net sched) = [delivery r fresh net sched].
Proof.
  intros Hc. unfold poll, delivery.
  destruct (until_failure_split sched)
    as [[Hall ->] | (pre & i & post & m & -> & Hpre & Hi & ->)].
  - rewrite async_map_all_succeed; [| exact Hc |].
    + rewrite deliveries_app, pages_events_silent, deliveries_poll_done.
      simpl. rewrite status_seen; [done |].
      intros i. apply complete_bound, Hc.
    + rewrite Forall_forall in Hall. apply Forall_forall. intros i Hin.
      apply page_succeeds; [| by apply Hall].
      apply (complete_bound _ _ Hc), list_elem_of_In, Hin.
  - assert (Hbound : ∀ j, In j (pre ++ i :: post) → j < length pages)
      by (intros j; apply complete_bound, Hc).
    assert (Hilt : i < length pages)
      by (apply Hbound, in_app_iff; right; by left).
    rewrite async_map_first_failure; [| exact Hc | |].
    + rewrite !deliveries_app, !pages_events_silent, page_events_silent.
      rewrite deliveries_poll_done. simpl.
      rewrite page_err, Hi by done.
      rewrite status_seen.
      * rewrite existsb_app. simpl. rewrite Hi. simpl.
        by rewrite !orb_false_r.
      * intros j Hj. apply Hbound. apply in_app_iff in Hj as [Hj | [<- | []]];
          apply in_app_iff; [by left | right; by left].
    + rewrite Forall_forall in Hpre. apply Forall_forall. intros j Hin.
      apply page_succeeds; [| by apply Hpre].
      apply Hbound, in_app_iff. left. by apply list_elem_of_In.
    + rewrite page_err, Hi by done. done.
Qed.

(** Every call of the callback, whatever the schedule, comes from
    [poll_done]. *)
Lemma poll_callback_origin fresh sched err res :
  In (Callback err res) (poll r fresh net sched) →
  ∃ results, res = poll_result fresh (aggregate results).
Proof.
  unfold poll, async_map. simpl. intros H.
  apply map_loop_origin in H as [[i H] | (e & results & H)].
  - unfold item_events in H. destruct (pages !! i) as [page |]; [| destruct H].
    unfold check_page in H.
    destruct (net i); simpl in H; intuition discriminate.
  - exists results. simpl in H. destruct H as [H | [H | []]]; [discriminate |].
    by injection H as _ <-.
Qed.
End poll_facts.

(* ===================================================================== *)
(** * The comparison and the callback of app.js *)
(* ===================================================================== *)

Lemma equal_objects_eq (a b : gmap string value) :
  equal_objects a b = true ↔ a = b.
Proof.
  unfold equal_objects. rewrite andb_true_iff, bool_decide_eq_true, forallb_forall.
  split.
  - intros [Hsize Hall]. apply map_subseteq_size_eq; [| lia].
    apply map_subseteq_spec. intros k v Hk.
    specialize (Hall (k, v)). simpl in Hall.
    destruct (b !! k) as [w |].
    + rewrite bool_decide_eq_true in Hall. f_equal. symmetry. apply Hall.
      by apply list_elem_of_In, elem_of_map_to_list.
    + discriminate Hall. by apply list_elem_of_In, elem_of_map_to_list.
  - intros <-. split; [done |]. intros [k v] Hin. simpl.
    apply list_elem_of_In, elem_of_map_to_list in Hin. rewrite Hin.
    by apply bool_decide_eq_true.
Qed.

Lemma poll_results_equal f1 f2 s :
  lodash_eq (poll_result f1 s) (poll_result f2 s) = true.
Proof. simpl. by apply equal_objects_eq. Qed.

Lemma empty_object_differs id fresh s :
  lodash_eq (Obj (Object id ∅)) (poll_result fresh s) = false.
Proof.
  simpl. unfold equal_objects.
  rewrite map_size_empty, map_size_insert_None by apply lookup_empty.
  by rewrite map_size_empty.
Qed.

Lemma read_status_poll_result fresh s :
  read_status (poll_result fresh s) = Some (VString s).
Proof. simpl. unfold get. simpl. by rewrite lookup_insert_eq. Qed.

Lemma notifications_app t1 t2 :
  notifications (t1 ++ t2) = notifications t1 ++ notifications t2.
Proof. apply List.filter_app. Qed.

Lemma on_result_same recipient cur err res :
  lodash_eq cur res = true →
  (on_result recipient cur err res).1 = cur ∧
  notifications (on_result recipient cur err res).2 = [].
Proof.
  intros Heq. unfold on_result. rewrite Heq. simpl. split; [done |].
  by destruct (truthy err).
Qed.

Lemma on_result_changed recipient cur err res status :
  lodash_eq cur res = false → read_status res = Some status →
  (on_result recipient cur err res).1 = res ∧
  notifications (on_result recipient cur err res).2 =
  notified recipient status.
Proof.
  intros Hne Hst. unfold on_result. rewrite Hne, Hst. simpl. split; [done |].
  rewrite notifications_app. by destruct (truthy err).
Qed.

Lemma on_result_silent recipient cur err res :
  deliveries (on_result recipient cur err res).2 = [].
Proof.
  unfold on_result.
  destruct (lodash_eq cur res), (truthy err), (read_status res); reflexivity.
Qed.

Lemma handle_silent recipient cur trace :
  deliveries trace = [] → handle recipient cur trace = (cur, trace).
Proof.
  induction trace as [| e rest IH]; [done |].
  destruct e; simpl; intros H; try discriminate H; by rewrite IH.
Qed.

(** A trace with one call of the callback: the callback of app.js runs
    once, on that call. *)
Lemma handle_single recipient err res trace : ∀ cur,
  deliveries trace = [(err, res)] → notifications trace = [] →
  (handle recipient cur trace).1 = (on_result recipient cur err res).1 ∧
  notifications (handle recipient cur trace).2 =
  notifications (on_result recipient cur err res).2.
Proof.
  induction trace as [| e rest IH]; intros cur Hd Hn; [discriminate Hd |].
  destruct e; simpl in Hd, Hn; try discriminate Hn.
  2: {
    injection Hd as -> -> Hrest. simpl.
    destruct (on_result recipient cur err res) as [cur' out] eqn:Hon.
    rewrite (handle_silent _ _ _ Hrest). simpl.
    split; [done |].
    change (notifications (Callback err res :: out ++ rest))
      with (notifications (out ++ rest)).
    by rewrite notifications_app, Hn, app_nil_r. }
  all: simpl; specialize (IH cur Hd Hn);
    destruct (handle recipient cur rest) as [cur' out']; simpl in *;
    destruct IH as [-> IH]; split; [done | exact IH].
Qed.

Lemma deliveries_handle recipient trace : ∀ cur,
  deliveries (handle recipient cur trace).2 = deliveries trace.
Proof.
  induction trace as [| e rest IH]; intros cur; [done |].
  destruct e; simpl;
    try (specialize (IH cur); destruct (handle recipient cur rest);
         simpl in *; by rewrite ?IH).
  pose proof (on_result_silent recipient cur err result) as Hs.
  destruct (on_result recipient cur err result) as [cur' out].
  specialize (IH cur'). destruct (handle recipient cur' rest) as [cur'' out'].
  simpl in *. change (deliveries (Callback err result :: out ++ out'))
    with ((err, result) :: deliveries (out ++ out')).
  by rewrite deliveries_app, Hs, IH.
Qed.

Lemma notifications_none trace :
  (∀ e, In e trace → is_notification e = false) → notifications trace = [].
Proof.
  induction trace as [| e rest IH]; intros H; [done |].
  unfold notifications. simpl. rewrite (H e) by (by left).
  apply IH. intros e' He'. apply H. by right.
Qed.

(** [poll] itself only logs and calls the callback. *)
Lemma poll_notifies_nothing r fresh net sched :
  notifications (poll r fresh net sched) = [].
Proof.
  apply notifications_none. intros e. unfold poll, async_map. simpl. intros H.
  apply map_loop_origin in H as [[i H] | (err & results & H)].
  - unfold item_events in H. destruct (pages !! i) as [page |]; [| destruct H].
    unfold check_page in H.
    destruct (net i); simpl in H; intuition (subst; reflexivity).
  - simpl in H. intuition (subst; reflexivity).
Qed.

(** What one firing of the timer does to the process, for a cycle whose
    requests all end. *)
Lemma run_cycle_single r recipient p c :
  complete (arrival c) →
  let d := delivery r (next_oid p) (net c) (arrival c) in
  currentResult (run_cycle r recipient p c).1 =
    (on_result recipient (currentResult p) d.1 d.2).1 ∧
  next_oid (run_cycle r recipient p c).1 = S (next_oid p) ∧
  notifications (run_cycle r recipient p c).2 =
    notifications (on_result recipient (currentResult p) d.1 d.2).2.
Proof.
  intros Hc d. unfold run_cycle.
  pose proof (poll_delivers r (net c) (next_oid p) (arrival c) Hc) as Hd.
  fold d in Hd. destruct d as [err res].
  pose proof (handle_single recipient err res _ (currentResult p) Hd
                (poll_notifies_nothing _ _ _ _)) as [H1 H2].
  destruct (handle recipient (currentResult p) _) as [cur out].
  simpl in *. auto.
Qed.

Lemma complete_01 : complete [0; 1].
Proof. unfold complete. simpl. reflexivity. Qed.

Lemma complete_10 : complete [1; 0].
Proof. unfold complete. simpl. apply perm_swap. Qed.

Lemma complete_cons sched : complete sched → ∃ i rest, sched = i :: rest.
Proof.
  unfold complete. intros Hc. apply Permutation_length in Hc.
  destruct sched as [| i rest]; [discriminate Hc | eauto].
Qed.

Lemma complete_covers sched i : complete sched → i < length pages → In i sched.
Proof.
  unfold complete. intros Hc Hi. apply list_elem_of_In. rewrite Hc.
  apply elem_of_seq. lia.
Qed.

Lemma status_of_cases b :
  status_of b = "available" ∧ b = true ∨ status_of b = "unavailable" ∧ b = false.
Proof. destruct b; auto. Qed.

Lemma deliveries_In err res trace :
  In (err, res) (deliveries trace) ↔ In (Callback err res) trace.
Proof.
  unfold deliveries. rewrite <- !list_elem_of_In, list_elem_of_omap. split.
  - intros (e & He & Hd). destruct e; try discriminate Hd.
    by injection Hd as -> ->.
  - intros He. by exists (Callback err res).
Qed.

(** The error of a cycle is the mark that a page failed. *)
Lemma delivery_error r fresh net sched :
  complete sched →
  truthy (delivery r fresh net sched).1 = true ↔
  ∃ i, i < length pages ∧ failed (net i) = true.
Proof.
  intros Hc. unfold delivery.
  destruct (until_failure_split net sched)
    as [[Hall ->] | (pre & i & post & m & -> & Hpre & Hi & ->)]; simpl.
  - split; [discriminate |]. intros (i & Hi & Hf).
    rewrite Forall_forall in Hall.
    rewrite (Hall i) in Hf; [discriminate |].
    by apply list_elem_of_In, complete_covers.
  - split; [| done]. intros _. exists i. split; [| by rewrite Hi].
    apply (complete_bound _ _ Hc), in_app_iff. right. by left.
Qed.

(** Every request ends with the same response: the delivery does not
    depend on the order. *)
Lemma delivery_constant r fresh resp sched :
  complete sched →
  delivery r fresh (λ _, resp) sched =
  (match resp with Failed m => VError m | Fetched _ => VNull end,
   poll_result fresh (status_of (page_true r resp))).
Proof.
  intros Hc. apply complete_cons in Hc as (i & rest & ->).
  unfold delivery. destruct resp as [m | doc]; [done |].
  assert (Hu : ∀ l, until_failure (λ _, Fetched doc) l = (l, None)).
  { induction l as [| j l IH]; [done |]. simpl. by rewrite IH. }
  rewrite Hu. do 3 f_equal. generalize (page_true r (Fetched doc)) as b.
  intros [|]; [done |]. generalize (i :: rest) as l.
  induction l as [| j l IH]; [done | exact IH].
Qed.

Lemma lodash_eq_any_identity cur f1 f2 s :
  lodash_eq cur (poll_result f1 s) = lodash_eq cur (poll_result f2 s).
Proof. by destruct cur. Qed.

Lemma run_cycle_deliveries r recipient p c :
  complete (arrival c) →
  deliveries (run_cycle r recipient p c).2 =
  [delivery r (next_oid p) (net c) (arrival c)].
Proof.
  intros Hc. unfold run_cycle.
  pose proof (deliveries_handle recipient
                (poll r (next_oid p) (net c) (arrival c)) (currentResult p)) as H.
  destruct (handle recipient (currentResult p) _) as [cur out]. simpl in *.
  by rewrite H, poll_delivers.
Qed.

Lemma run_cycle_next r recipient p c :
  next_oid (run_cycle r recipient p c).1 = S (next_oid p).
Proof.
  unfold run_cycle. by destruct (handle recipient (currentResult p) _).
Qed.

Lemma run_deliveries r recipient cycles : ∀ p,
  Forall (λ c, complete (arrival c)) cycles →
  deliveries (run r recipient p cycles).2 = expected r (next_oid p) cycles.
Proof.
  induction cycles as [| c rest IH]; intros p Hall; [done |].
  apply Forall_cons in Hall as [Hc Hall]. simpl.
  pose proof (run_cycle_deliveries r recipient p c Hc) as Hd.
  pose proof (run_cycle_next r recipient p c) as Hn.
  destruct (run_cycle r recipient p c) as [p' out].
  specialize (IH p' Hall). destruct (run r recipient p' rest) as [p'' out'].
  simpl in *. by rewrite deliveries_app, Hd, IH, Hn.
Qed.

Lemma expected_length r cycles : ∀ fresh,
  length (expected r fresh cycles) = length cycles.
Proof. induction cycles as [| c rest IH]; intros fresh; simpl; by rewrite ?IH. Qed.

Lemma delivery_result r fresh net sched :
  ∃ s, (delivery r fresh net sched).2 = poll_result fresh s.
Proof. unfold delivery. destruct (until_failure net sched). eauto. Qed.

Lemma expected_results r cycles : ∀ fresh,
  Forall (λ d, ∃ o, d.2 = Obj o) (expected r fresh cycles).
Proof.
  induction cycles as [| c rest IH]; intros fresh; simpl; constructor; [| done].
  destruct (delivery_result r fresh (net c) (arrival c)) as [s ->]. eauto.
Qed.

(** X1: when no page fails, the one call of the callback has no error and
    its status is the disjunction of all the pages, in whatever order the
    requests end. *)
Theorem status_without_failure r fresh net sched :
  complete sched →
  (∀ i, i < length pages → failed (net i) = false) →
  deliveries (poll r fresh net sched) =
  [(VNull, poll_result fresh
             (status_of (existsb (λ i, page_true r (net i))
                           (seq 0 (length pages)))))].
Proof.
  intros Hc Hok. rewrite poll_delivers by done. unfold delivery.
  destruct (until_failure_split net sched)
    as [[Hall ->] | (pre & i & post & m & -> & Hpre & Hi & ->)].
  - assert (E : existsb (λ i, page_true r (net i)) sched =
                existsb (λ i, page_true r (net i)) (seq 0 (length pages))).
    { unfold complete in Hc. apply eq_true_iff_eq. rewrite !existsb_exists.
      split; intros (i & Hin & Hi); exists i; (split; [| done]).
      - apply list_elem_of_In. rewrite <- Hc. by apply list_elem_of_In.
      - apply list_elem_of_In. rewrite Hc. by apply list_elem_of_In. }
    by rewrite E.
  - assert (Hlt : i < length pages)
      by (apply (complete_bound _ _ Hc), in_app_iff; right; by left).
    specialize (Hok i Hlt). rewrite Hi in Hok. discriminate Hok.
Qed.

(* ===================================================================== *)
(** * The claims *)
(* ===================================================================== *)

(** C1, on the code: with page A failing first and page B holding a slot,
    a page outcome is true and yet the status delivered is
    ["unavailable"]: the first failure makes [async.map] call the final
    callback before page B has stored its value.  (Without a failed page
    the status is the disjunction of all pages:
    [status_without_failure].) *)
Theorem status_misses_page_after_failure r :
  complete [0; 1] ∧
  page_true r (a_fails_b_available 1) = true ∧
  deliveries (poll r 1 a_fails_b_available [0; 1]) =
  [(VError "ETIMEDOUT", poll_result 1 "unavailable")].
Proof.
  split; [exact complete_01 |]. split; [by destruct r |].
  rewrite poll_delivers by exact complete_01. reflexivity.
Qed.

(** C2: two results with the same [status] and the same [details] compare
    equal under [_.eq], whatever their identities, and the callback that
    compares them notifies nobody and keeps its stored result. *)
Theorem equal_fields_compare_equal (a b : object) recipient err :
  is_poll_result a → is_poll_result b →
  fields a !! "status" = fields b !! "status" →
  fields a !! "details" = fields b !! "details" →
  lodash_eq (Obj a) (Obj b) = true ∧
  (on_result recipient (Obj a) err (Obj b)).1 = Obj a ∧
  notifications (on_result recipient (Obj a) err (Obj b)).2 = [].
Proof.
  unfold is_poll_result. intros Ha Hb Hs Hd.
  assert (Heq : lodash_eq (Obj a) (Obj b) = true).
  { simpl. apply equal_objects_eq, map_eq. intros k.
    destruct (decide (k = "status")) as [-> | Hks]; [exact Hs |].
    destruct (decide (k = "details")) as [-> | Hkd]; [exact Hd |].
    assert (Hk : ∀ o : object,
               dom (fields o) ⊆ {["status"; "details"]} → fields o !! k = None).
    { intros o Ho. apply not_elem_of_dom. intros Hin. apply Ho in Hin.
      apply elem_of_union in Hin as [Hin | Hin];
        apply elem_of_singleton in Hin; contradiction. }
    by rewrite (Hk a Ha), (Hk b Hb). }
  split; [exact Heq |]. by apply on_result_same.
Qed.

Lemma equal_fields_compare_equal_witness :
  oid (Object 1 {["status" := VString "available"]}) ≠
  oid (Object 2 {["status" := VString "available"]}) ∧
  lodash_eq (Obj (Object 1 {["status" := VString "available"]}))
            (Obj (Object 2 {["status" := VString "available"]})) = true.
Proof.
  split; [simpl; lia |].
  refine (proj1 (equal_fields_compare_equal
                   (Object 1 {["status" := VString "available"]})
                   (Object 2 {["status" := VString "available"]})
                   VUndefined VNull _ _ _ _)).
  - unfold is_poll_result. simpl. rewrite dom_singleton_L. set_solver.
  - unfold is_poll_result. simpl. rewrite dom_singleton_L. set_solver.
  - reflexivity.
  - reflexivity.
Defined.

(** C3, on the code: page A fails, page B succeeds with a matching
    element, and A's request ends first.  The callback is called with A's
    error, which is also logged, and with status ["unavailable"]; page B
    is still fetched and processed afterwards, but its value comes after
    the only call of the callback.  When B's request ends first the status
    is ["available"]. *)
Theorem failure_first_hides_available_page r :
  poll r 1 a_fails_b_available [0; 1] =
  [Log Debug (WithValue "Called calendar page %s"
                (VString "http://www.seetickets.com/tour/dismaland/calendar/1"));
   Log Error (WithValue "" (VError "ETIMEDOUT"));
   Log Debug (WithArray "Done processing pages: %j" [VUndefined]);
   Callback (VError "ETIMEDOUT") (poll_result 1 "unavailable");
   Log Debug (WithValue "Called calendar page %s"
                (VString "http://www.seetickets.com/tour/dismaland/calendar/2"))] ∧
  deliveries (poll r 1 a_fails_b_available [1; 0]) =
  [(VError "ETIMEDOUT", poll_result 1 "available")].
Proof.
  split; [reflexivity |].
  rewrite poll_delivers by exact complete_10. by destruct r.
Qed.

(** C4: when every page check fails, the one call of the callback carries
    an error, that of the request that ended first; the cycle never
    reports a bare ["unavailable"] (the result object that comes with the
    error has that status). *)
Theorem all_pages_fail_error r fresh net sched :
  complete sched →
  (∀ i, i < length pages → failed (net i) = true) →
  ∃ i m, i < length pages ∧ net i = Failed m ∧ truthy (VError m) = true ∧
    deliveries (poll r fresh net sched) =
    [(VError m, poll_result fresh "unavailable")].
Proof.
  intros Hc Hall. rewrite poll_delivers by done.
  destruct (complete_cons sched Hc) as (i & rest & ->).
  assert (Hi : i < length pages) by (apply (complete_bound _ _ Hc); by left).
  specialize (Hall i Hi). unfold delivery. simpl.
  destruct (net i) as [m | doc] eqn:Hn; [| discriminate Hall].
  exists i, m. by rewrite Hn.
Qed.

Lemma all_pages_fail_error_witness :
  ∃ i m, i < length pages ∧ both_fail i = Failed m ∧
    truthy (VError m) = true ∧
    deliveries (poll Linked 5 both_fail [1; 0]) =
    [(VError m, poll_result 5 "unavailable")].
Proof.
  apply (all_pages_fail_error Linked 5 both_fail [1; 0]).
  - exact complete_10.
  - intros [| [| i]] Hi; simpl in *; [reflexivity | reflexivity | lia].
Defined.

(** C5: two cycles whose requests all end with the same response deliver
    two results that are distinct objects and equal under [_.eq], in
    whatever order the requests end, and the second cycle notifies nobody
    and leaves the stored result as it is. *)
Theorem unchanged_page_no_duplicate r recipient p resp sched1 sched2 :
  complete sched1 → complete sched2 →
  ∃ err status,
    deliveries (poll r (next_oid p) (λ _, resp) sched1) =
      [(err, poll_result (next_oid p) status)] ∧
    deliveries (poll r (S (next_oid p)) (λ _, resp) sched2) =
      [(err, poll_result (S (next_oid p)) status)] ∧
    strict_eq (poll_result (next_oid p) status)
              (poll_result (S (next_oid p)) status) = false ∧
    lodash_eq (poll_result (next_oid p) status)
              (poll_result (S (next_oid p)) status) = true ∧
    notifications
      (run_cycle r recipient
         (run_cycle r recipient p (Cycle (λ _, resp) sched1)).1
         (Cycle (λ _, resp) sched2)).2 = [] ∧
    currentResult
      (run_cycle r recipient
         (run_cycle r recipient p (Cycle (λ _, resp) sched1)).1
         (Cycle (λ _, resp) sched2)).1 =
    currentResult (run_cycle r recipient p (Cycle (λ _, resp) sched1)).1.
Proof.
  intros Hc1 Hc2.
  set (err := match resp with Failed m => VError m | Fetched _ => VNull end).
  set (status := status_of (page_true r resp)).
  exists err, status.
  rewrite !poll_delivers, !delivery_constant by done.
  split; [done |]. split; [done |].
  split; [simpl; apply bool_decide_eq_false; lia |].
  split; [apply poll_results_equal |].
  set (c1 := Cycle (λ _, resp) sched1). set (c2 := Cycle (λ _, resp) sched2).
  destruct (run_cycle_single r recipient p c1 Hc1) as (Hcur & Hnext & _).
  set (p1 := (run_cycle r recipient p c1).1) in *.
  destruct (run_cycle_single r recipient p1 c2 Hc2) as (Hcur2 & _ & Hnote).
  rewrite Hnext in Hcur2, Hnote. simpl in Hcur, Hcur2, Hnote.
  rewrite delivery_constant in Hcur, Hcur2, Hnote by done.
  fold err status in Hcur, Hcur2, Hnote. simpl in Hcur, Hcur2, Hnote.
  assert (Heq : lodash_eq (currentResult p1)
                  (poll_result (S (next_oid p)) status) = true).
  { rewrite Hcur.
    destruct (lodash_eq (currentResult p) (poll_result (next_oid p) status))
      eqn:Hold.
    - rewrite (proj1 (on_result_same recipient _ err _ Hold)).
      by rewrite (lodash_eq_any_identity _ _ (next_oid p)).
    - rewrite (proj1 (on_result_changed recipient _ err _ _ Hold
                        (read_status_poll_result _ _))).
      apply poll_results_equal. }
  destruct (on_result_same recipient _ err _ Heq) as [H1 H2].
  rewrite Hcur2, Hnote. auto.
Qed.

Lemma unchanged_page_no_duplicate_witness :
  notifications
    (run_cycle Priced (VString "me@example.org")
       (run_cycle Priced (VString "me@example.org") start
          (Cycle (λ _, Fetched (calendar_with priced_link)) [0; 1])).1
       (Cycle (λ _, Fetched (calendar_with priced_link)) [1; 0])).2 = [].
Proof.
  destruct (unchanged_page_no_duplicate Priced (VString "me@example.org") start
              (Fetched (calendar_with priced_link)) [0; 1] [1; 0]
              complete_01 complete_10)
    as (err & status & _ & _ & _ & _ & H & _).
  exact H.
Defined.

(** C6, as the code has it: each revision of [processPage] tests one kind
    of element.  The outcome of a fetched page is true exactly when a
    "day has shows" element contains a "times" element that contains a
    priced slot (first revision) or a link (second revision); the test
    for either kind is the disjunction of the two revisions, which
    neither of them computes. *)
Theorem page_outcome_by_revision r doc :
  page_outcome r doc = has_entry_with (matches (innermost r)) doc ∧
  spec_outcome doc = page_outcome Priced doc || page_outcome Linked doc.
Proof.
  assert (Hone : ∀ r', page_outcome r' doc =
                       has_entry_with (matches (innermost r')) doc).
  { intros r'. apply eq_true_iff_eq.
    rewrite page_outcome_true, has_entry_with_true. unfold select, selector.
    split.
    - intros (x & Hx). apply in_flat_map in Hx as (root & Hroot & Hx).
      apply select_in_selects, selects_three in Hx
        as (day & Hday & Ha & times & Htimes & Hb & Hx & Hc).
      exists root, day, times, x. auto 10.
    - intros (root & day & times & x & Hroot & Hday & Ha & Htimes & Hb & Hx & Hc).
      exists x. apply in_flat_map. exists root. split; [exact Hroot |].
      apply select_in_selects, selects_three.
      exists day. repeat (split; [assumption |]).
      exists times. auto. }
  split; [apply Hone |]. rewrite !Hone. unfold spec_outcome.
  apply eq_true_iff_eq. rewrite orb_true_iff, !has_entry_with_true.
  unfold priced_or_link. simpl. split.
  - intros (root & day & times & x & Hroot & Hday & Ha & Htimes & Hb & Hx & Hc).
    apply orb_true_iff in Hc as [Hc | Hc]; [left | right];
      exists root, day, times, x; auto 10.
  - intros [H | H];
      destruct H as (root & day & times & x & Hroot & Hday & Ha & Htimes & Hb & Hx & Hc);
      exists root, day, times, x; repeat (split; [assumption |]);
      apply orb_true_iff; auto.
Qed.

(** C6, the claim as stated fails: a plain link makes the claim's test
    true and the first revision's outcome false; a priced element that is
    not a link makes it true and the second revision's outcome false. *)
Lemma outcome_is_not_either_kind :
  spec_outcome (calendar_with plain_link) = true ∧
  page_outcome Priced (calendar_with plain_link) = false ∧
  spec_outcome (calendar_with priced_span) = true ∧
  page_outcome Linked (calendar_with priced_span) = false.
Proof. repeat split; vm_compute; reflexivity. Qed.

(** C7, the claim as stated fails: when page A fails after page B has
    ended, the one call of the callback carries both an error and a
    result. *)
Lemma error_and_result_in_one_call :
  ∃ d, In d (deliveries (poll Priced 1 a_fails_b_available [1; 0])) ∧
       ¬ exclusive d.
Proof.
  exists (VError "ETIMEDOUT", poll_result 1 "available").
  split; [left; reflexivity |].
  intros [[_ H] | [H _]]; [| discriminate H].
  by apply (H (Object 1 (<["status" := VString "available"]> ∅))).
Qed.

(** C7, as the code has it: every cycle calls the callback exactly once;
    the call always carries a result object, and it carries an error as
    well exactly when a page check failed.  A run of cycles makes these
    calls one per cycle, in the order in which the cycles end. *)
Theorem one_call_per_cycle r recipient p cycles :
  Forall (λ c, complete (arrival c)) cycles →
  deliveries (run r recipient p cycles).2 = expected r (next_oid p) cycles ∧
  length (deliveries (run r recipient p cycles).2) = length cycles ∧
  Forall (λ d, ∃ o, d.2 = Obj o) (deliveries (run r recipient p cycles).2) ∧
  ∀ c fresh, In c cycles →
    (truthy (delivery r fresh (net c) (arrival c)).1 = true ↔
     ∃ i, i < length pages ∧ failed (net c i) = true).
Proof.
  intros Hall. rewrite run_deliveries by done.
  split; [done |]. split; [apply expected_length |].
  split; [apply expected_results |].
  intros c fresh Hc. apply delivery_error.
  rewrite Forall_forall in Hall. by apply Hall, list_elem_of_In.
Qed.

Lemma one_call_per_cycle_witness :
  length (deliveries
            (run Linked VUndefined start
               [Cycle a_fails_b_available [0; 1]; Cycle both_fail [1; 0]]).2) = 2.
Proof.
  refine (proj1 (proj2 (one_call_per_cycle Linked VUndefined start
            [Cycle a_fails_b_available [0; 1]; Cycle both_fail [1; 0]] _))).
  apply List.Forall_cons; [exact complete_01 |].
  apply List.Forall_cons; [exact complete_10 |].
  apply List.Forall_nil.
Defined.




(** C9: the stored result starts as the empty object, which no result of
    a cycle equals; so the first cycle that completes, whatever its
    status, sends the mail and the push note and stores its result. *)
Theorem first_cycle_notifies r recipient c :
  complete (arrival c) →
  ∃ err s,
    deliveries (poll r (next_oid start) (net c) (arrival c)) =
      [(err, poll_result 1 s)] ∧
    (s = "available" ∨ s = "unavailable") ∧
    lodash_eq (currentResult start) (poll_result 1 s) = false ∧
    notifications (run_cycle r recipient start c).2 =
      notified recipient (VString s) ∧
    currentResult (run_cycle r recipient start c).1 = poll_result 1 s.
Proof.
  intros Hc. rewrite poll_delivers by done.
  destruct (run_cycle_single r recipient start c Hc) as (Hcur & _ & Hnote).
  rewrite Hcur, Hnote. clear Hcur Hnote.
  change (next_oid start) with 1.
  unfold delivery. destruct (until_failure (net c) (arrival c)) as [seen failure].
  set (err := match failure with Some m => VError m | None => VNull end).
  set (s := status_of (existsb (λ i, page_true r (net c i)) seen)).
  cbn [fst snd]. exists err, s. split; [done |].
  split; [unfold s; destruct (existsb _ seen); auto |].
  pose proof (empty_object_differs 0 1 s) as Hne.
  split; [exact Hne |].
  destruct (on_result_changed recipient (currentResult start) err _ _ Hne
              (read_status_poll_result 1 s)) as [H1 H2].
  auto.
Qed.

Lemma first_cycle_notifies_witness :
  ∃ err s,
    deliveries (poll Linked (next_oid start) both_fail [0; 1]) =
      [(err, poll_result 1 s)] ∧
    (s = "available" ∨ s = "unavailable") ∧
    lodash_eq (currentResult start) (poll_result 1 s) = false ∧
    notifications (run_cycle Linked (VString "me@example.org") start
                     (Cycle both_fail [0; 1])).2 =
      notified (VString "me@example.org") (VString s) ∧
    currentResult (run_cycle Linked (VString "me@example.org") start
                     (Cycle both_fail [0; 1])).1 = poll_result 1 s.
Proof.
  apply (first_cycle_notifies Linked (VString "me@example.org")
           (Cycle both_fail [0; 1])).
  exact complete_01.
Defined.

(** C10: whenever [poll] calls the callback, with or without an error,
    the second argument is an object whose [status] is ["available"] or
    ["unavailable"]. *)
Theorem callback_result_always_object r fresh net sched err res :
  In (Callback err res) (poll r fresh net sched) →
  ∃ o, res = Obj o ∧
    (get o "status" = VString "available" ∨
     get o "status" = VString "unavailable").
Proof.
  intros H. apply poll_callback_origin in H as [results ->].
  eexists. split; [reflexivity |]. unfold get. simpl.
  rewrite lookup_insert_eq. simpl. rewrite aggregate_status.
  destruct (existsb truthy results); auto.
Qed.

Lemma callback_result_always_object_witness :
  truthy (VError "ETIMEDOUT") = true ∧
  ∃ o, poll_result 1 "unavailable" = Obj o ∧
    (get o "status" = VString "available" ∨
     get o "status" = VString "unavailable").
Proof.
  split; [reflexivity |].
  apply (callback_result_always_object Priced 1 a_fails_b_available [0; 1]
           (VError "ETIMEDOUT")).
  do 3 right. left. reflexivity.
Defined.

(* ===================================================================== *)
(** * Cycles in which not every request ends *)
(* ===================================================================== *)

Section async_map_partial.
Context {A : Type}.
Variable iterator : A → nat → list event * (value * value).
Variable final : value → list value → list event.
Variable arr : list A.

(** Items that succeed, fewer than there are items: nothing but their
    events. *)
Lemma async_map_pending sched :
  Forall (succeeds iterator arr) sched → length sched < length arr →
  async_map iterator final arr sched = flat_map (item_events iterator arr) sched.
Proof.
  intros Hall Hlen.
  rewrite async_map_loop by (intros ->; simpl in Hlen; lia).
  rewrite <- (app_nil_r sched) at 1.
  rewrite map_loop_succeeding; [| done | done | simpl; lia].
  simpl. by rewrite app_nil_r.
Qed.

(** The first failure calls the final callback, whatever comes after. *)
Lemma async_map_failure_any pre i post :
  Forall (succeeds iterator arr) pre → length pre < length arr →
  i < length arr → truthy (item_err iterator arr i) = true →
  async_map iterator final arr (pre ++ i :: post) =
  flat_map (item_events iterator arr) pre ++ item_events iterator arr i ++
  final (item_err iterator arr i) (snapshot iterator arr (pre ++ [i]) []) ++
  flat_map (item_events iterator arr) post.
Proof.
  intros Hpre Hlen Hi Herr.
  rewrite async_map_loop by (intros ->; simpl in Hi; lia).
  rewrite map_loop_succeeding; [| done | done | simpl; lia].
  rewrite map_loop_failure; [| done | done | done].
  cbn [results]. by rewrite snapshot_snoc.
Qed.
End async_map_partial.

Lemma partial_length ended : partial ended → length ended ≤ length pages.
Proof.
  intros [Hnd Hall].
  assert (H : length ended ≤ length (seq 0 (length pages)));
    [| by rewrite length_seq in H].
  apply submseteq_length, NoDup_submseteq; [exact Hnd |].
  intros i Hi. rewrite Forall_forall in Hall. apply elem_of_seq.
  specialize (Hall i Hi). lia.
Qed.

Lemma pages_succeed r net l :
  Forall (λ i, i < length pages) l →
  Forall (λ i, failed (net i) = false) l →
  Forall (succeeds (λ page i, check_page r (net i) page) pages) l.
Proof.
  rewrite !Forall_forall. intros Hb Hf i Hi.
  apply page_succeeds; [by apply Hb | by apply Hf].
Qed.

(** What [poll] emits is a log line or a call of the callback with a
    result object. *)
Lemma poll_events r fresh net sched e :
  In e (poll r fresh net sched) →
  (∃ lvl what, e = Log lvl what) ∨
  (∃ err results, e = Callback err (poll_result fresh (aggregate results))).
Proof.
  unfold poll, async_map. simpl. intros H.
  apply map_loop_origin in H as [[i H] | (err & results & H)].
  - left. unfold item_events in H. destruct (pages !! i) as [page |]; [| destruct H].
    unfold check_page in H.
    destruct (net i); simpl in H; intuition (subst; eauto).
  - simpl in H. destruct H as [<- | [<- | []]]; eauto.
Qed.

Lemma deliveries_length_called r fresh net sched : ∀ st,
  length (deliveries
            (map_loop (λ page i, check_page r (net i) page) (poll_done fresh)
               pages st sched)) ≤ (if called st then 0 else 1).
Proof.
  induction sched as [| i rest IH]; intros st; [destruct (called st); simpl; lia |].
  destruct (decide (i < length pages)) as [Hi | Hi].
  - rewrite map_loop_cons by done.
    rewrite !deliveries_app, page_events_silent, !length_app. simpl.
    unfold item_done.
    destruct (truthy (item_err _ pages i)); [| destruct (decide _)]; simpl.
    + rewrite map_loop_called by done. rewrite pages_events_silent.
      destruct (called st); simpl; lia.
    + rewrite map_loop_called by done. rewrite pages_events_silent.
      destruct (called st); simpl; lia.
    + specialize (IH (MapState
          (array_set i (item_value (λ page j, check_page r (net j) page) pages i)
             (results st)) (S (completed st)) (called st))).
      simpl in IH. lia.
  - simpl. rewrite lookup_ge_None_2 by lia. apply IH.
Qed.

(** X2: in one cycle the callback is called at most once, whatever the
    requests do: end in any order, fail, or never end. *)
Theorem poll_calls_back_at_most_once r fresh net sched :
  length (deliveries (poll r fresh net sched)) ≤ 1.
Proof.
  unfold poll, async_map. simpl.
  apply (deliveries_length_called r fresh net sched (MapState [] 0 false)).
Qed.

(** X3: while a request has not ended and none of those that ended has
    failed, the callback is not called: a request that never ends keeps
    the cycle from ever reporting. *)
Theorem pending_request_no_callback r fresh net sched :
  partial sched → length sched < length pages →
  Forall (λ i, failed (net i) = false) sched →
  deliveries (poll r fresh net sched) = [].
Proof.
  intros [_ Hb] Hlen Hok. unfold poll.
  rewrite async_map_pending; [| by apply pages_succeed | done].
  apply pages_events_silent.
Qed.

Lemma pending_request_no_callback_witness :
  deliveries (poll Priced 1 a_fails_b_available [1]) = [].
Proof.
  apply pending_request_no_callback.
  - split; [apply NoDup_singleton |].
    apply List.Forall_cons; [simpl; lia | apply List.Forall_nil].
  - simpl; lia.
  - apply List.Forall_cons; [reflexivity | apply List.Forall_nil].
Defined.

(** X4: the first request to fail decides the call: the callback gets its
    error and the disjunction of the pages that ended before it, whatever
    the other requests do afterwards (succeed, fail as well, or never
    end). *)
Theorem first_failure_decides r fresh net pre i post m :
  partial (pre ++ [i]) →
  Forall (λ j, failed (net j) = false) pre →
  net i = Failed m →
  deliveries (poll r fresh net (pre ++ i :: post)) =
  [(VError m,
    poll_result fresh (status_of (existsb (λ j, page_true r (net j)) pre)))].
Proof.
  intros Hp Hok Hi. pose proof (partial_length _ Hp) as Hlen.
  rewrite length_app in Hlen. change (length [i]) with 1 in Hlen.
  destruct Hp as [_ Hb]. apply Forall_app in Hb as [Hb Hib].
  apply Forall_cons in Hib as [Hib _].
  unfold poll. rewrite async_map_failure_any;
    [| by apply pages_succeed | lia | done | by rewrite page_err, Hi].
  rewrite !deliveries_app, !pages_events_silent, page_events_silent.
  rewrite deliveries_poll_done. simpl. rewrite page_err, Hi by done.
  rewrite status_seen.
  - rewrite existsb_app. simpl. rewrite Hi. simpl. by rewrite !orb_false_r.
  - intros j Hj. rewrite Forall_forall in Hb.
    apply in_app_iff in Hj as [Hj | [<- | []]]; [| done].
    by apply Hb, list_elem_of_In.
Qed.

Lemma first_failure_decides_witness :
  deliveries (poll Linked 1 a_fails_b_available ([] ++ 0 :: [])) =
  [(VError "ETIMEDOUT", poll_result 1 (status_of false))].
Proof.
  apply (first_failure_decides Linked 1 a_fails_b_available [] 0 [] "ETIMEDOUT").
  - split; [apply NoDup_singleton |].
    apply List.Forall_cons; [simpl; lia | apply List.Forall_nil].
  - apply List.Forall_nil.
  - reflexivity.
Defined.

(* ===================================================================== *)
(** * Pages without the calendar markup *)
(* ===================================================================== *)

Lemma page_outcome_nested r doc :
  page_outcome r doc = true ↔
  ∃ root day times x, In root doc ∧ In day (subnodes root) ∧
    matches (Class "day-has-shows") day = true ∧
    In times (descendants day) ∧ matches (Class "times") times = true ∧
    In x (descendants times) ∧ matches (innermost r) x = true.
Proof.
  rewrite page_outcome_true. unfold select, selector. split.
  - intros (x & Hx). apply in_flat_map in Hx as (root & Hroot & Hx).
    apply select_in_selects, selects_three in Hx
      as (day & Hday & Ha & times & Htimes & Hb & Hx & Hc).
    exists root, day, times, x. auto 10.
  - intros (root & day & times & x & Hroot & Hday & Ha & Htimes & Hb & Hx & Hc).
    exists x. apply in_flat_map. exists root. split; [exact Hroot |].
    apply select_in_selects, selects_three.
    exists day. repeat (split; [assumption |]).
    exists times. auto.
Qed.

Lemma page_outcome_no_calendar r doc :
  no_calendar doc → page_outcome r doc = false.
Proof.
  intros Hno. apply not_true_is_false. intros H.
  apply page_outcome_nested in H
    as (root & day & times & x & Hroot & Hday & Ha & _).
  rewrite (Hno day) in Ha; [discriminate |].
  apply in_flat_map. eauto.
Qed.

(** X5: a page that is fetched but holds no "day has shows" element (an
    empty body, an error page served with success, a changed layout)
    counts as false, in both revisions; when every page is like that the
    cycle reports ["unavailable"] with no error. *)
Theorem pages_without_calendar_unavailable r fresh net sched :
  complete sched →
  (∀ i, i < length pages → ∃ doc, net i = Fetched doc ∧ no_calendar doc) →
  deliveries (poll r fresh net sched) =
  [(VNull, poll_result fresh "unavailable")].
Proof.
  intros Hc Hall. rewrite status_without_failure; [| done |].
  - do 3 f_equal. simpl.
    destruct (Hall 0) as (d0 & -> & H0); [simpl; lia |].
    destruct (Hall 1) as (d1 & -> & H1); [simpl; lia |].
    simpl. by rewrite !page_outcome_no_calendar.
  - intros i Hi. by destruct (Hall i Hi) as (doc & -> & _).
Qed.

Lemma pages_without_calendar_unavailable_witness :
  deliveries (poll Linked 4 (λ _, Fetched [Element "body" [] [plain_link]]) [1; 0]) =
  [(VNull, poll_result 4 "unavailable")].
Proof.
  apply pages_without_calendar_unavailable; [exact complete_10 |].
  intros i _. eexists. split; [reflexivity |].
  intros n Hn. simpl in Hn.
  destruct Hn as [<- | [<- | [<- | []]]]; reflexivity.
Defined.

(* ===================================================================== *)
(** * The change detector over cycles *)
(* ===================================================================== *)

Lemma delivery_status r fresh c :
  (delivery r fresh (net c) (arrival c)).2 = poll_result fresh (cycle_status r c).
Proof.
  unfold delivery, cycle_status.
  by destruct (until_failure (net c) (arrival c)).
Qed.

(** Results are compared by their status alone. *)
Lemma poll_results_compare f1 f2 s1 s2 :
  lodash_eq (poll_result f1 s1) (poll_result f2 s2) = bool_decide (s1 = s2).
Proof.
  apply eq_true_iff_eq. rewrite bool_decide_eq_true. simpl.
  rewrite equal_objects_eq. split.
  - intros H. apply (f_equal (λ m : gmap string value, m !! "status")) in H.
    rewrite !lookup_insert_eq in H. by injection H.
  - by intros ->.
Qed.

(** One cycle seen from the callback: the stored result, the
    notifications. *)
Lemma run_cycle_on_delivery r recipient p c :
  complete (arrival c) →
  ∃ err,
    currentResult (run_cycle r recipient p c).1 =
      (on_result recipient (currentResult p) err
         (poll_result (next_oid p) (cycle_status r c))).1 ∧
    notifications (run_cycle r recipient p c).2 =
      notifications (on_result recipient (currentResult p) err
         (poll_result (next_oid p) (cycle_status r c))).2.
Proof.
  intros Hc. destruct (run_cycle_single r recipient p c Hc) as (H1 & _ & H2).
  simpl in H1, H2. rewrite delivery_status in H1, H2. eauto.
Qed.

(** X6: with a result stored, a cycle notifies exactly when the status it
    delivers differs from the stored one, with the new status in the mail
    and in the push note; an error that comes with the result changes
    nothing to that.  Afterwards the stored status is the delivered
    one. *)
Theorem notifies_on_status_change r recipient p c f stored :
  complete (arrival c) →
  currentResult p = poll_result f stored →
  notifications (run_cycle r recipient p c).2 =
    (if decide (cycle_status r c = stored) then []
     else notified recipient (VString (cycle_status r c))) ∧
  ∃ f', currentResult (run_cycle r recipient p c).1 =
        poll_result f' (cycle_status r c).
Proof.
  intros Hc Hp. destruct (run_cycle_on_delivery r recipient p c Hc)
    as (err & -> & ->). rewrite Hp.
  pose proof (poll_results_compare f (next_oid p) stored (cycle_status r c)) as Hcmp.
  destruct (decide (cycle_status r c = stored)) as [Heq | Hne].
  - rewrite bool_decide_eq_true_2 in Hcmp by done.
    destruct (on_result_same recipient _ err _ Hcmp) as [-> ->].
    split; [done |]. exists f. by rewrite Heq.
  - rewrite bool_decide_eq_false_2 in Hcmp by done.
    destruct (on_result_changed recipient _ err _ _ Hcmp
                (read_status_poll_result _ _)) as [-> ->].
    split; [done |]. eauto.
Qed.

Lemma notifies_on_status_change_witness :
  notifications
    (run_cycle Priced (VString "me@example.org")
       (Process (poll_result 7 "unavailable") 8)
       (Cycle (λ _, Fetched (calendar_with priced_link)) [0; 1])).2 =
  notified (VString "me@example.org") (VString "available").
Proof.
  exact (proj1 (notifies_on_status_change Priced (VString "me@example.org")
                  (Process (poll_result 7 "unavailable") 8)
                  (Cycle (λ _, Fetched (calendar_with priced_link)) [0; 1])
                  7 "unavailable" complete_01 eq_refl)).
Defined.

(** X7: after every cycle, whatever was stored before, the stored result
    is equal under [_.eq] to the result the cycle has just delivered. *)
Theorem stored_result_follows_delivery r recipient p c :
  complete (arrival c) →
  lodash_eq (currentResult (run_cycle r recipient p c).1)
            (delivery r (next_oid p) (net c) (arrival c)).2 = true.
Proof.
  intros Hc. rewrite delivery_status.
  destruct (run_cycle_on_delivery r recipient p c Hc) as (err & -> & _).
  destruct (lodash_eq (currentResult p)
              (poll_result (next_oid p) (cycle_status r c))) eqn:Hcmp.
  - by rewrite (proj1 (on_result_same recipient _ err _ Hcmp)).
  - rewrite (proj1 (on_result_changed recipient _ err _ _ Hcmp
                      (read_status_poll_result _ _))).
    apply poll_results_equal.
Qed.

Lemma stored_result_follows_delivery_witness :
  lodash_eq
    (currentResult (run_cycle Linked VUndefined start
                      (Cycle both_fail [1; 0])).1)
    (delivery Linked (next_oid start) both_fail [1; 0]).2 = true.
Proof.
  apply (stored_result_follows_delivery Linked VUndefined start
           (Cycle both_fail [1; 0])).
  exact complete_10.
Defined.

(** X8: a failure is reported as unavailability.  When ["available"] is
    stored and the first request of a cycle to end fails, the callback
    sends the mail and the push note "Dismaland is now unavailable",
    whatever the other page holds. *)
Theorem failure_notifies_unavailable r recipient p f c i rest m :
  complete (arrival c) → arrival c = i :: rest → net c i = Failed m →
  currentResult p = poll_result f "available" →
  notifications (run_cycle r recipient p c).2 =
  notified recipient (VString "unavailable").
Proof.
  intros Hc Harr Hi Hp.
  destruct (run_cycle_on_delivery r recipient p c Hc) as (err & _ & ->).
  assert (Hs : cycle_status r c = "unavailable").
  { unfold cycle_status. rewrite Harr. simpl. by rewrite Hi. }
  rewrite Hs, Hp.
  pose proof (poll_results_compare f (next_oid p) "available" "unavailable") as Hcmp.
  rewrite bool_decide_eq_false_2 in Hcmp by discriminate.
  exact (proj2 (on_result_changed recipient _ err _ _ Hcmp
                  (read_status_poll_result _ _))).
Qed.

Lemma failure_notifies_unavailable_witness :
  notifications
    (run_cycle Priced (VString "me@example.org")
       (Process (poll_result 3 "available") 4)
       (Cycle a_fails_b_available [0; 1])).2 =
  notified (VString "me@example.org") (VString "unavailable").
Proof.
  exact (failure_notifies_unavailable Priced (VString "me@example.org")
           (Process (poll_result 3 "available") 4) 3
           (Cycle a_fails_b_available [0; 1]) 0 [1] "ETIMEDOUT"
           complete_01 eq_refl eq_refl eq_refl).
Defined.

Lemma changes_head prev l s rest :
  changes prev l = s :: rest → prev ≠ Some s.
Proof.
  induction l as [| x l IH]; simpl; [discriminate |].
  destruct (decide (prev = Some x)) as [Heq | Hne]; [exact IH |].
  intros H. injection H as -> _. exact Hne.
Qed.

Lemma changes_no_repeat l : ∀ prev i s,
  changes prev l !! i = Some s → changes prev l !! S i ≠ Some s.
Proof.
  induction l as [| x l IH]; intros prev i s; simpl; [done |].
  destruct (decide (prev = Some x)) as [Heq | Hne]; [apply IH |].
  destruct i as [| i]; simpl.
  - intros H. injection H as ->.
    destruct (changes (Some s) l) as [| y rest] eqn:Hch; [done |].
    simpl. intros H. injection H as ->.
    by apply changes_head in Hch.
  - apply IH.
Qed.

Lemma run_notifications r recipient cycles : ∀ p prev,
  stores prev (currentResult p) →
  Forall (λ c, complete (arrival c)) cycles →
  notifications (run r recipient p cycles).2 =
  flat_map (λ s, notified recipient (VString s))
    (changes prev (map (cycle_status r) cycles)).
Proof.
  induction cycles as [| c rest IH]; intros p prev Hst Hall; [done |].
  apply Forall_cons in Hall as [Hc Hall]. simpl.
  destruct (run_cycle_on_delivery r recipient p c Hc) as (err & Hcur & Hnote).
  destruct (run_cycle r recipient p c) as [p' out] eqn:Hrun.
  simpl in Hcur, Hnote.
  assert (Hcmp : lodash_eq (currentResult p)
                   (poll_result (next_oid p) (cycle_status r c)) =
                 bool_decide (prev = Some (cycle_status r c))).
  { destruct prev as [s |]; simpl in Hst.
    - destruct Hst as [f ->]. rewrite poll_results_compare.
      apply bool_decide_ext. split; [by intros -> | by intros [= ->]].
    - rewrite Hst, empty_object_differs. by rewrite bool_decide_eq_false_2. }
  destruct (decide (prev = Some (cycle_status r c))) as [Heq | Hne].
  - rewrite bool_decide_eq_true_2 in Hcmp by done.
    destruct (on_result_same recipient _ err _ Hcmp) as [H1 H2].
    rewrite H1 in Hcur. rewrite H2 in Hnote.
    assert (Hst' : stores prev (currentResult p')) by (by rewrite Hcur).
    specialize (IH p' prev Hst' Hall).
    destruct (run r recipient p' rest) as [p'' out']. simpl in *.
    by rewrite notifications_app, Hnote, IH.
  - rewrite bool_decide_eq_false_2 in Hcmp by done.
    destruct (on_result_changed recipient _ err _ _ Hcmp
                (read_status_poll_result _ _)) as [H1 H2].
    rewrite H1 in Hcur. rewrite H2 in Hnote.
    assert (Hst' : stores (Some (cycle_status r c)) (currentResult p'))
      by (simpl; eauto).
    specialize (IH p' _ Hst' Hall).
    destruct (run r recipient p' rest) as [p'' out']. simpl in *.
    by rewrite notifications_app, Hnote, IH.
Qed.

(** X9: over a run of cycles from the start of the process, the
    notifications are those of the status changes, in order: one mail and
    one push note for the first cycle and for every cycle whose status
    differs from that of the cycle before; the same status is never
    notified twice in a row. *)
Theorem run_notifies_changes r recipient cycles :
  Forall (λ c, complete (arrival c)) cycles →
  ∃ statuses,
    statuses = changes None (map (cycle_status r) cycles) ∧
    notifications (run r recipient start cycles).2 =
      flat_map (λ s, notified recipient (VString s)) statuses ∧
    ∀ i s, statuses !! i = Some s → statuses !! S i ≠ Some s.
Proof.
  intros Hall. eexists. split; [reflexivity |]. split.
  - by apply run_notifications.
  - apply changes_no_repeat.
Qed.

Lemma run_notifies_changes_witness :
  ∃ statuses,
    statuses =
      changes None
        (map (cycle_status Priced)
           [Cycle both_fail [0; 1]; Cycle a_fails_b_available [0; 1];
            Cycle a_fails_b_available [1; 0]]) ∧
    notifications
      (run Priced VNull start
         [Cycle both_fail [0; 1]; Cycle a_fails_b_available [0; 1];
          Cycle a_fails_b_available [1; 0]]).2 =
      flat_map (λ s, notified VNull (VString s)) statuses ∧
    ∀ i s, statuses !! i = Some s → statuses !! S i ≠ Some s.
Proof.
  apply run_notifies_changes.
  apply List.Forall_cons; [exact complete_01 |].
  apply List.Forall_cons; [exact complete_01 |].
  apply List.Forall_cons; [exact complete_10 |].
  apply List.Forall_nil.
Defined.

Lemma on_result_object_safe recipient cur err o :
  ¬ In TypeError (on_result recipient cur err (Obj o)).2.
Proof.
  unfold on_result. destruct (lodash_eq cur (Obj o)), (truthy err); simpl;
    intuition discriminate.
Qed.

Lemma handle_safe recipient trace : ∀ cur,
  (∀ e, In e trace →
        (∃ lvl what, e = Log lvl what) ∨ (∃ err o, e = Callback err (Obj o))) →
  ¬ In TypeError (handle recipient cur trace).2.
Proof.
  induction trace as [| e rest IH]; intros cur Hev; [simpl; tauto |].
  assert (Hrest : ∀ e', In e' rest →
            (∃ lvl what, e' = Log lvl what) ∨ (∃ err o, e' = Callback err (Obj o)))
    by (intros e' He'; apply Hev; by right).
  destruct (Hev e (or_introl eq_refl)) as [(lvl & what & ->) | (err & o & ->)];
    simpl.
  - specialize (IH cur Hrest). destruct (handle recipient cur rest) as [cur' out'].
    simpl in *. intros [H | H]; [discriminate | tauto].
  - pose proof (on_result_object_safe recipient cur err o) as Hsafe.
    destruct (on_result recipient cur err (Obj o)) as [cur' out].
    specialize (IH cur' Hrest).
    destruct (handle recipient cur' rest) as [cur'' out']. simpl in *.
    rewrite in_app_iff. intros [H | [H | H]]; [discriminate | tauto | tauto].
Qed.

(** X10: the callback never reads [status] of [undefined]: in any run of
    cycles, whatever the requests do, no TypeError is raised, because
    every call of the callback carries a result object. *)
Theorem run_never_throws r recipient cycles : ∀ p,
  ¬ In TypeError (run r recipient p cycles).2.
Proof.
  induction cycles as [| c rest IH]; intros p; [simpl; tauto |].
  simpl. assert (Hc : ¬ In TypeError (run_cycle r recipient p c).2).
  { unfold run_cycle.
    pose proof (handle_safe recipient
                  (poll r (next_oid p) (net c) (arrival c)) (currentResult p)) as H.
    destruct (handle recipient (currentResult p) _) as [cur out]. simpl in *.
    apply H. intros e He. apply poll_events in He as [He | (err & results & ->)];
      [by left | right]. unfold poll_result. eauto. }
  destruct (run_cycle r recipient p c) as [p' out].
  specialize (IH p'). destruct (run r recipient p' rest) as [p'' out'].
  simpl in *. rewrite in_app_iff. tauto.
Qed.

(* ===================================================================== *)
(** * logging.js *)
(* ===================================================================== *)

Lemma getenv_string env name s :
  getenv env name = VString s ↔ env !! name = Some s.
Proof.
  unfold getenv. destruct (env !! name) as [t |]; split; intros H;
    try discriminate; by injection H as ->.
Qed.

Lemma truthy_getenv env name :
  truthy (getenv env name) = bool_decide (is_Some (set_nonempty env name)).
Proof.
  unfold getenv, set_nonempty. destruct (env !! name) as [s |]; cbn [truthy].
  - destruct (decide (s = "")) as [-> | Hne]; symmetry.
    + apply bool_decide_eq_false_2. intros [? ?]; discriminate.
    + rewrite bool_decide_eq_true_2 by eauto. symmetry.
      apply negb_true_iff, String.eqb_neq, Hne.
  - symmetry. apply bool_decide_eq_false_2. intros [? ?]; discriminate.
Qed.

Lemma set_nonempty_Some env name s :
  set_nonempty env name = Some s → getenv env name = VString s ∧ s ≠ "".
Proof.
  unfold set_nonempty, getenv. destruct (env !! name) as [t |]; [| discriminate].
  destruct (decide (t = "")); [discriminate |]. by intros [= ->].
Qed.

(** X11: the logger gets a console transport exactly when
    [CONSOLE_LOG_ENABLED] is the string ["true"], and then only one; its
    level is the first of [CONSOLE_LOG_LEVEL_APP] and [CONSOLE_LOG_LEVEL]
    that is set and not empty, else ["debug"], so the level is never
    empty or [undefined]. *)
Theorem console_transport_choice env :
  winstonTransports env =
    (if decide (env !! "CONSOLE_LOG_ENABLED" = Some "true")
     then [Console true true (VString (chosen_level env))] else []) ∧
  chosen_level env ≠ "".
Proof.
  split.
  - unfold winstonTransports.
    destruct (decide (env !! "CONSOLE_LOG_ENABLED" = Some "true")) as [He | He].
    + rewrite bool_decide_eq_true_2 by (by apply getenv_string).
      simpl. do 2 f_equal. unfold js_or at 2, chosen_level.
      rewrite truthy_getenv.
      destruct (set_nonempty env "CONSOLE_LOG_LEVEL_APP") as [a |] eqn:Ha.
      * rewrite bool_decide_eq_true_2 by eauto. unfold js_or.
        rewrite truthy_getenv, Ha, bool_decide_eq_true_2 by eauto.
        by apply set_nonempty_Some in Ha as [-> _].
      * rewrite bool_decide_eq_false_2 by (intros [? ?]; discriminate).
        unfold js_or. rewrite truthy_getenv.
        destruct (set_nonempty env "CONSOLE_LOG_LEVEL") as [b |] eqn:Hb.
        -- rewrite bool_decide_eq_true_2 by eauto.
           by apply set_nonempty_Some in Hb as [-> _].
        -- by rewrite bool_decide_eq_false_2 by (intros [? ?]; discriminate).
    + rewrite bool_decide_eq_false_2; [done |].
      intros H. by apply getenv_string in H.
  - unfold chosen_level.
    destruct (set_nonempty env "CONSOLE_LOG_LEVEL_APP") as [a |] eqn:Ha.
    + by apply set_nonempty_Some in Ha as [_ Hne].
    + destruct (set_nonempty env "CONSOLE_LOG_LEVEL") as [b |] eqn:Hb; simpl.
      * by apply set_nonempty_Some in Hb as [_ Hne].
      * discriminate.
Qed.

(* ===================================================================== *)
(** * poller.js, first revision: the cards of a listing *)
(* ===================================================================== *)

Lemma read_None o key : read o key = None ↔ nullish o.
Proof.
  unfold nullish. destruct o; simpl; split; intros H;
    try discriminate; try done; auto; by destruct H.
Qed.

Lemma read_Some_not_nullish o key v : read o key = Some v → ¬ nullish o.
Proof. intros H Hn. apply (read_None o key) in Hn. congruence. Qed.

(** What [annotationToCard] returns when nothing throws. *)
Lemma annotationToCard_Some listing annotation card :
  annotationToCard listing annotation = Some card ↔
  ∃ pubDate listingId cDVRURL inner title offset,
    read listing "pubDate" = Some pubDate ∧
    read listing "listingId" = Some listingId ∧
    read listing "cDVRURL" = Some cDVRURL ∧
    read annotation "annotation" = Some inner ∧
    read inner "title" = Some title ∧
    read annotation "offset" = Some offset ∧
    card = card_of pubDate listingId cDVRURL title offset.
Proof.
  unfold annotationToCard. split.
  - intros H.
    destruct (read listing "pubDate") as [pubDate |] eqn:E1; [| discriminate H].
    destruct (read listing "listingId") as [listingId |] eqn:E2; [| discriminate H].
    destruct (read listing "cDVRURL") as [cDVRURL |] eqn:E3; [| discriminate H].
    destruct (read annotation "annotation") as [inner |] eqn:E4; [| discriminate H].
    simpl in H.
    destruct (read inner "title") as [title |] eqn:E5; [| discriminate H].
    destruct (read annotation "offset") as [offset |] eqn:E6; [| discriminate H].
    simpl in H. injection H as <-.
    exists pubDate, listingId, cDVRURL, inner, title, offset.
    repeat split; done.
  - intros (pubDate & listingId & cDVRURL & inner & title & offset &
            -> & -> & -> & -> & H1 & -> & ->).
    simpl. rewrite H1. reflexivity.
Qed.

Lemma annotationToCard_None listing annotation :
  ¬ nullish listing →
  annotationToCard listing annotation = None ↔
  nullish annotation ∨
  ∃ inner, read annotation "annotation" = Some inner ∧ nullish inner.
Proof.
  intros Hl. unfold annotationToCard.
  destruct (read listing "pubDate") as [pubDate |] eqn:H1;
    [| by apply read_None in H1].
  destruct (read listing "listingId") as [listingId |] eqn:H2;
    [| by apply read_None in H2].
  destruct (read listing "cDVRURL") as [cDVRURL |] eqn:H3;
    [| by apply read_None in H3].
  simpl.
  destruct (read annotation "annotation") as [inner |] eqn:H4; simpl.
  - destruct (read inner "title") as [title |] eqn:H5; simpl.
    + destruct (read annotation "offset") as [offset |] eqn:H6; simpl.
      * split; [discriminate |]. intros [Hn | (inner' & [= <-] & Hn)].
        -- by apply (read_Some_not_nullish _ _ _ H4) in Hn.
        -- by apply (read_Some_not_nullish _ _ _ H5) in Hn.
      * split; [| done]. intros _. left. by apply read_None in H6.
    + split; [| done]. intros _. right. exists inner.
      split; [done |]. by apply read_None in H5.
  - split; [| done]. intros _. left. by apply read_None in H4.
Qed.

Lemma listingToCards_array listing payload anns :
  read listing "payload" = Some payload →
  read payload "annotations" = Some (JArray anns) →
  listingToCards listing = mapM (annotationToCard listing) anns.
Proof. intros H1 H2. unfold listingToCards. by rewrite H1; simpl; rewrite H2. Qed.

(** X12: for a listing whose [payload.annotations] is an array, when
    nothing throws there is one card for each annotation, in the same
    order, and the card at a position is made of the listing's [pubDate],
    [listingId] (as [feedId]) and [cDVRURL] and of that annotation's
    [annotation.title] and [offset], with the fixed [mimeType] and
    [duration], and no other property. *)
Theorem cards_follow_annotations listing payload anns cards :
  read listing "payload" = Some payload →
  read payload "annotations" = Some (JArray anns) →
  listingToCards listing = Some cards →
  length cards = length anns ∧
  ∀ k ann, anns !! k = Some ann →
    ∃ pubDate listingId cDVRURL inner title offset,
      read listing "pubDate" = Some pubDate ∧
      read listing "listingId" = Some listingId ∧
      read listing "cDVRURL" = Some cDVRURL ∧
      read ann "annotation" = Some inner ∧
      read inner "title" = Some title ∧
      read ann "offset" = Some offset ∧
      cards !! k = Some (card_of pubDate listingId cDVRURL title offset).
Proof.
  intros H1 H2 H. rewrite (listingToCards_array _ _ _ H1 H2) in H.
  apply mapM_Some_1 in H. split; [symmetry; by eapply Forall2_length |].
  intros k ann Hk.
  destruct (Forall2_lookup_l _ _ _ _ _ H Hk) as (card & Hcard & Hmake).
  apply annotationToCard_Some in Hmake
    as (pubDate & listingId & cDVRURL & inner & title & offset &
        Ha & Hb & Hc & Hd & He & Hf & ->).
  exists pubDate, listingId, cDVRURL, inner, title, offset. auto 10.
Qed.

(** X13: for a listing whose [payload.annotations] is an array,
    [listingToCards] throws exactly when some annotation is [undefined]
    or [null] or has an [annotation] that is; one such annotation loses
    the cards of all the others. *)
Theorem cards_throw_on_bad_annotation listing payload anns :
  read listing "payload" = Some payload →
  read payload "annotations" = Some (JArray anns) →
  listingToCards listing = None ↔
  ∃ ann, In ann anns ∧
    (nullish ann ∨
     ∃ inner, read ann "annotation" = Some inner ∧ nullish inner).
Proof.
  intros H1 H2. rewrite (listingToCards_array _ _ _ H1 H2).
  rewrite mapM_None, Exists_exists.
  pose proof (read_Some_not_nullish _ _ _ H1) as Hl.
  split; intros (ann & Hin & H); exists ann.
  - split; [by apply list_elem_of_In |]. by apply annotationToCard_None in H.
  - split; [by apply list_elem_of_In |]. by apply annotationToCard_None.
Qed.

(** X14: a listing that is [undefined] or [null], or whose [payload] is
    missing, makes [listingToCards] throw; a payload whose [annotations]
    is missing gives no cards and no error. *)
Theorem cards_of_incomplete_listing listing :
  (nullish listing → listingToCards listing = None) ∧
  (∀ payload, read listing "payload" = Some payload → nullish payload →
     listingToCards listing = None) ∧
  (∀ payload annotations,
     read listing "payload" = Some payload →
     read payload "annotations" = Some annotations → nullish annotations →
     listingToCards listing = Some []).
Proof.
  unfold listingToCards. split; [| split].
  - intros Hn. by rewrite (proj2 (read_None listing "payload") Hn).
  - intros payload -> Hn. simpl.
    by rewrite (proj2 (read_None payload "annotations") Hn).
  - intros payload annotations -> H2 Hn. simpl. rewrite H2. simpl.
    by destruct Hn as [-> | ->].
Qed.

Lemma cards_follow_annotations_witness :
  length [card_of (JString "2015-09-01") (JNumber 42)
            (JString "http://cdvr.example.org/42") (JString "Goal") (JNumber 30)] =
  length [goal_annotation].
Proof.
  refine (proj1 (cards_follow_annotations
                   (listing_with (JArray [goal_annotation]))
                   (JObject [("annotations", JArray [goal_annotation])])
                   [goal_annotation] _ _ _ _)); reflexivity.
Defined.

Lemma cards_throw_on_bad_annotation_witness :
  listingToCards (listing_with (JArray [goal_annotation; bare_annotation])) = None.
Proof.
  apply (cards_throw_on_bad_annotation
           (listing_with (JArray [goal_annotation; bare_annotation]))
           (JObject [("annotations", JArray [goal_annotation; bare_annotation])])
           [goal_annotation; bare_annotation]); [reflexivity | reflexivity |].
  exists bare_annotation. split; [right; left; reflexivity |].
  right. exists JUndefined. split; [reflexivity | left; reflexivity].
Defined.

Lemma cards_of_incomplete_listing_witness :
  listingToCards (JObject [("listingId", JNumber 42)]) = None ∧
  listingToCards (listing_with JUndefined) = Some [].
Proof.
  split.
  - apply (proj1 (proj2 (cards_of_incomplete_listing
                           (JObject [("listingId", JNumber 42)]))) JUndefined);
      [reflexivity | left; reflexivity].
  - apply (proj2 (proj2 (cards_of_incomplete_listing (listing_with JUndefined)))
             (JObject [("annotations", JUndefined)]) JUndefined);
      [reflexivity | reflexivity | left; reflexivity].
Defined.

Lemma status_without_failure_witness :
  deliveries (poll Linked 2 (λ _, Fetched (calendar_with plain_link)) [1; 0]) =
  [(VNull, poll_result 2
             (status_of (existsb
                (λ i, page_true Linked ((λ _, Fetched (calendar_with plain_link)) i))
                (seq 0 (length pages)))))].
Proof.
  apply (status_without_failure Linked 2
           (λ _, Fetched (calendar_with plain_link)) [1; 0]).
  - exact complete_10.
  - intros i _. reflexivity.
Defined.

(* ===================================================================== *)
(** * The two revisions, and what is logged *)
(* ===================================================================== *)

Lemma descendants_in_subnodes n x : In x (descendants n) → In x (subnodes n).
Proof.
  intros H. destruct n as [tag classes kids | data]; [| destruct H].
  apply subnodes_element. right. apply in_flat_map in H. exact H.
Qed.

(** X15: the second revision finds what the first finds on every page
    whose priced elements are links: there, a page that the selector
    [.day-has-shows .times .show-lowest-price] makes true is true for
    [.day-has-shows .times a] as well. *)
Theorem linked_finds_priced_links doc :
  (∀ x, In x (flat_map subnodes doc) →
        matches (Class "show-lowest-price") x = true →
        matches (Tag "a") x = true) →
  page_outcome Priced doc = true → page_outcome Linked doc = true.
Proof.
  intros Hlinks H. apply page_outcome_nested in H
    as (root & day & times & x & Hroot & Hday & Ha & Htimes & Hb & Hx & Hc).
  apply page_outcome_nested. exists root, day, times, x.
  repeat (split; [assumption |]). apply Hlinks; [| exact Hc].
  apply in_flat_map. exists root. split; [exact Hroot |].
  apply (subnodes_trans root day x Hday).
  apply (subnodes_trans day times x); by apply descendants_in_subnodes.
Qed.

Lemma linked_finds_priced_links_witness :
  page_outcome Linked (calendar_with priced_link) = true.
Proof.
  apply (linked_finds_priced_links (calendar_with priced_link)).
  - intros x Hx Hp. simpl in Hx.
    destruct Hx as [<- | [<- | [<- | [<- | [<- | [<- | []]]]]]];
      first [reflexivity | vm_compute in Hp; discriminate Hp].
  - reflexivity.
Defined.

Section async_map_events.
Context {A : Type}.
Variable iterator : A → nat → list event * (value * value).
Variable final : value → list value → list event.
Variable arr : list A.

(** What an item emits when its work ends is in the trace, whether or not
    the final callback has been used by then. *)
Lemma map_loop_item_events sched : ∀ st i e,
  In i sched → In e (item_events iterator arr i) →
  In e (map_loop iterator final arr st sched).
Proof.
  induction sched as [| j rest IH]; intros st i e Hi He; [destruct Hi |].
  simpl. destruct Hi as [-> | Hi].
  - unfold item_events in He. destruct (arr !! i) as [x |]; [| destruct He].
    destruct (iterator x i) as [evs [err v]]. simpl in He.
    destruct (item_done final (length arr) st i err v) as [st' out].
    apply in_app_iff. by left.
  - destruct (arr !! j) as [x |]; [| by apply (IH st i)].
    destruct (iterator x j) as [evs [err v]].
    destruct (item_done final (length arr) st j err v) as [st' out].
    rewrite !in_app_iff. right. right. by apply (IH st' i).
Qed.
End async_map_events.

(** X16: every page failure that happens in a cycle is logged at error
    level with its error, also when it is not the first one and so is not
    the error the callback gets. *)
Theorem every_failure_is_logged r fresh net sched i m :
  In i sched → i < length pages → net i = Failed m →
  In (Log Error (WithValue "" (VError m))) (poll r fresh net sched).
Proof.
  intros Hin Hi Hn. unfold poll, async_map. simpl.
  apply (map_loop_item_events _ _ pages sched _ i); [exact Hin |].
  unfold item_events. apply lookup_lt_is_Some_2 in Hi as [page ->].
  unfold check_page. rewrite Hn. simpl. right. by left.
Qed.

Lemma every_failure_is_logged_witness :
  In (Log Error (WithValue "" (VError "ECONNRESET")))
     (poll Priced 1 both_fail [0; 1]) ∧
  deliveries (poll Priced 1 both_fail [0; 1]) =
  [(VError "ETIMEDOUT", poll_result 1 "unavailable")].
Proof.
  split; [| reflexivity].
  apply (every_failure_is_logged Priced 1 both_fail [0; 1] 1 "ECONNRESET").
  - right. left. reflexivity.
  - simpl. lia.
  - reflexivity.
Defined.
